(** * interop.cpp: [example_cpp_function]

    A shallow embedding of [src/runtime/interop/interop.cpp] and the
    properties of its single function

      double example_cpp_function(int input, const std::vector<double>& data) {
          double sum = std::accumulate(data.begin(), data.end(), 0.0);
          return static_cast<double>(input) * sum;
      }

    - [double] is IEEE 754 binary64, modelled by the Standard Library's
      executable specification [spec_float] at precision 53 and maximal
      exponent 1024 (round to nearest, ties to even; one NaN).  Every
      operation is evaluated in binary64, as on x86-64 and AArch64.
      [add] and [mul] are the operations of the default rounding mode;
      [add_flagged] and [mul_flagged] are the same operations with the
      rounding direction and the exception flags of the floating-point
      environment.
    - [int] is a two's-complement integer, 32 bits wide as in the ILP32,
      LP64 and LLP64 data models: a [Z] together with the evidence that it
      lies in the range of the type.
    - [std::vector<double>] read through a const reference is a [list double].
*)

From Stdlib Require Import ZArith List Bool Lia PeanoNat.
From Stdlib Require Import Floats.SpecFloat.
Import ListNotations.

Local Open Scope Z_scope.

(** ** The binary64 format *)

Module Double.

Definition prec : Z := 53.
Definition emax : Z := 1024.

(** A [double] value.  The doubles proper are the [spec_float]s that
    satisfy [is_double]; the theorems below do not need that restriction. *)
Definition double : Type := spec_float.

Definition is_double (x : double) : bool := valid_binary prec emax x.

Definition add (x y : double) : double := SFadd prec emax x y.
Definition mul (x y : double) : double := SFmul prec emax x y.

(** IEEE comparison [x == y]: false as soon as one side is NaN, true on
    [+0.0] against [-0.0]. *)
Definition eqb (x y : double) : bool := SFeqb x y.

Definition zero : double := S754_zero false.          (* 0.0 *)
Definition neg_zero : double := S754_zero true.       (* -0.0 *)
Definition infinity : double := S754_infinity false.  (* +Infinity *)
Definition neg_infinity : double := S754_infinity true.
Definition nan : double := S754_nan.
Definition max_float : double := SFmax_float prec emax.   (* DBL_MAX *)

Definition is_nan (x : double) : bool :=
  match x with S754_nan => true | _ => false end.

Definition is_finite (x : double) : bool :=
  match x with
  | S754_zero _ | S754_finite _ _ _ => true
  | S754_infinity _ | S754_nan => false
  end.

(** Conversion of an integer to the nearest double.  On the range of a
    32-bit [int] it is exact. *)
Definition of_Z (z : Z) : double := binary_normalize prec emax z 0 false.

End Double.

Import Double.

(** The number of bits by which the conversion shifts an integer of less
    than 53 bits to the left to fill the mantissa. *)
Definition lshift (p : positive) : positive :=
  Z.to_pos (prec - Zpos (digits2_pos p)).

(** ** The type [int] *)

Module Int.

Definition wordsize : Z := 32.
Definition modulus : Z := 2 ^ wordsize.
Definition half_modulus : Z := 2 ^ (wordsize - 1).
Definition min_signed : Z := - half_modulus.      (* INT_MIN *)
Definition max_signed : Z := half_modulus - 1.    (* INT_MAX *)

Definition in_range (z : Z) : bool :=
  (min_signed <=? z) && (z <=? max_signed).

Record int : Type := mkint { signed : Z; signed_range : in_range signed = true }.

(** Conversion of an arbitrary integer to the range of [int]: reduction
    modulo [2^32] into the signed range (the narrowing conversion of C++). *)
Definition wrap (z : Z) : Z := (z + half_modulus) mod modulus - half_modulus.

(** The [int] that an integer converts to.  The second branch is never
    taken ([wrap_in_range] below). *)
Definition repr (z : Z) : int :=
  match bool_dec (in_range (wrap z)) true with
  | left H => mkint (wrap z) H
  | right _ => mkint 0 eq_refl
  end.

End Int.

Abbreviation int := Int.int.

(** ** The function *)

(** [static_cast<double>(i)] for [i] of type [int]. *)
Definition static_cast_double (i : int) : double := of_Z (Int.signed i).

(** [std::accumulate(first, last, init)] over the elements between the two
    iterators:  [for (; first != last; ++first) init = init + *first;
    return init;] *)
Fixpoint accumulate (first : list double) (init : double) : double :=
  match first with
  | [] => init
  | x :: next => accumulate next (add init x)
  end.

Definition example_cpp_function (input : int) (data : list double) : double :=
  let sum := accumulate data zero in
  mul (static_cast_double input) sum.

(** ** The contract in the words of the specification *)

(** [sum(values)]: a left-to-right fold of floating-point addition that
    starts from 0.0. *)
Definition sum (values : list double) : double := fold_left add values zero.

(** [scale_sum(m, values)]: the multiplier, an integer, converted to double
    precision, times the sum; one multiplication. *)
Definition scale_sum (m : Z) (values : list double) : double :=
  mul (of_Z m) (sum values).

(** ** Some doubles *)

Definition d_one : double := of_Z 1.
Definition d_two : double := of_Z 2.
Definition d_three : double := of_Z 3.
Definition d_half : double := S754_finite false 4503599627370496 (-53).

(** The successive values of [init] in the loop of [std::accumulate]: the
    initial value and the sum after each element. *)
Fixpoint running_sums (first : list double) (init : double) : list double :=
  init :: match first with
          | [] => []
          | x :: next => running_sums next (add init x)
          end.

Definition is_neg_infinity (x : double) : bool :=
  match x with S754_infinity true => true | _ => false end.

Definition is_pos_infinity (x : double) : bool :=
  match x with S754_infinity false => true | _ => false end.

(** [std::signbit]: the sign bit of a double (that of NaN is not modelled). *)
Definition signbit (x : double) : bool :=
  match x with
  | S754_zero s | S754_infinity s | S754_finite s _ _ => s
  | S754_nan => false
  end.

(** No running sum is [-Infinity]. *)
Definition no_negative_overflow (data : list double) : bool :=
  forallb (fun s => negb (is_neg_infinity s)) (running_sums data zero).

Definition lowest_float : double := SFopp max_float.   (* -DBL_MAX *)

(** ** Execution against the caller's memory

  The same function, run as the machine runs it: the vector lives in the
  caller's memory next to the process-wide state, the function holds a
  const reference to it, iterators are positions in the vector, and every
  dereference is a read of that memory.  A ghost log records the positions
  read.  The arithmetic is that of the default rounding mode; the
  floating-point environment is added further down. *)

Section Execution.

Context {G : Type}.   (* the process-wide state other than the
                         floating-point environment *)

Record world : Type := mkworld {
  vec : list double;       (* the caller-owned vector behind [data] *)
  globals : G
}.

Inductive outcome (A : Type) : Type :=
| Returned (a : A) (w : world) (reads : list nat)
| Fault          (* a read outside the vector, or a thrown exception *)
| OutOfFuel.     (* the loop was cut before it finished *)

Arguments Returned {A} a w reads.
Arguments Fault {A}.
Arguments OutOfFuel {A}.

Definition M (A : Type) : Type := world -> list nat -> outcome A.

Definition ret {A : Type} (a : A) : M A := fun w reads => Returned a w reads.

Definition bind {A B : Type} (c : M A) (k : A -> M B) : M B :=
  fun w reads =>
    match c w reads with
    | Returned a w' reads' => k a w' reads'
    | Fault => Fault
    | OutOfFuel => OutOfFuel
    end.

Definition out_of_fuel {A : Type} : M A := fun _ _ => OutOfFuel.

(** [data.begin()] and [data.end()], as positions. *)
Definition vec_begin : M nat := ret 0%nat.
Definition vec_end : M nat := fun w reads => Returned (length (vec w)) w reads.

(** [*it]: a read of the vector at position [it]. *)
Definition deref (it : nat) : M double :=
  fun w reads =>
    match nth_error (vec w) it with
    | Some x => Returned x w (reads ++ [it])
    | None => Fault
    end.

(** [for (; first != last; ++first) init = init + *first; return init;] *)
Fixpoint accumulate_exec (fuel : nat) (first last : nat) (init : double)
  : M double :=
  if Nat.eqb first last then ret init
  else
    match fuel with
    | O => out_of_fuel
    | S fuel' =>
        bind (deref first) (fun x =>
        accumulate_exec fuel' (S first) last (add init x))
    end.

Definition example_cpp_function_exec (fuel : nat) (input : int) : M double :=
  bind vec_begin (fun first =>
  bind vec_end (fun last =>
  bind (accumulate_exec fuel first last zero) (fun sum =>
  ret (mul (static_cast_double input) sum)))).

End Execution.

Arguments world G : clear implicits.
Arguments Returned {G A} a w reads.
Arguments Fault {G A}.
Arguments OutOfFuel {G A}.

(** ** The floating-point environment

    The additions and the product are instructions of the floating-point
    unit: they round in the direction the environment holds and set its
    sticky exception flags.  The environment is process-wide state (per
    thread), read with [fegetround] and [fetestexcept]. *)

(** The rounding direction in force ([fegetround]). *)
Inductive rounding_mode : Type :=
| FE_TONEAREST | FE_UPWARD | FE_DOWNWARD | FE_TOWARDZERO.

(** The five sticky exception flags ([fetestexcept]). *)
Record fexcept : Type := mkfexcept {
  fe_invalid : bool;
  fe_divbyzero : bool;
  fe_overflow : bool;
  fe_underflow : bool;
  fe_inexact : bool
}.

Definition no_except : fexcept := mkfexcept false false false false false.

Definition fexcept_or (a b : fexcept) : fexcept :=
  mkfexcept (fe_invalid a || fe_invalid b) (fe_divbyzero a || fe_divbyzero b)
            (fe_overflow a || fe_overflow b) (fe_underflow a || fe_underflow b)
            (fe_inexact a || fe_inexact b).

Record fenv : Type := mkfenv { rounding : rounding_mode; flags : fexcept }.

(** Raising exceptions sets their flags and clears none. *)
Definition raise (e : fexcept) (fe : fenv) : fenv :=
  mkfenv (rounding fe) (fexcept_or (flags fe) e).

(** The mantissa [mx] of a result of sign [sx], truncated with the rest
    described by [lx], rounded in the direction [rm]. *)
Definition round_mantissa (rm : rounding_mode) (sx : bool) (mx : Z)
           (lx : location) : Z :=
  match lx with
  | loc_Exact => mx
  | loc_Inexact _ =>
      match rm with
      | FE_TONEAREST => round_nearest_even mx lx
      | FE_TOWARDZERO => mx
      | FE_UPWARD => if sx then mx else mx + 1
      | FE_DOWNWARD => if sx then mx + 1 else mx
      end
  end.

(** The result delivered on overflow. *)
Definition overflow_result (rm : rounding_mode) (sx : bool) : double :=
  match rm with
  | FE_TONEAREST => S754_infinity sx
  | FE_TOWARDZERO => if sx then lowest_float else max_float
  | FE_UPWARD => if sx then lowest_float else infinity
  | FE_DOWNWARD => if sx then neg_infinity else max_float
  end.

(** Tininess, detected after rounding as on x86-64: the exact value
    [mx * 2^ex], rounded to 53 bits as if the exponent range were unbounded,
    lies below the smallest normal number [2^-1022]. *)
Definition tiny_after_rounding (rm : rounding_mode) (sx : bool) (mx ex : Z)
  : bool :=
  let '(mrs, e) :=
    shr (shr_record_of_loc mx loc_Exact) ex (Zdigits2 mx - prec) in
  let m := round_mantissa rm sx (shr_m mrs) (loc_of_shr_record mrs) in
  Zdigits2 m + e <=? SpecFloat.emin prec emax + prec - 1.

Definition is_inexact (l : location) : bool :=
  match l with loc_Exact => false | loc_Inexact _ => true end.

(** Rounding of the exact value [mx * 2^ex] of sign [sx] to binary64, with
    the exceptions it signals: inexact when bits are lost, underflow when
    the result is tiny and inexact, overflow (with inexact) when the rounded
    value exceeds the format.  With [FE_TONEAREST] the value is that of
    [binary_round_aux]. *)
Definition round_flagged (rm : rounding_mode) (sx : bool) (mx ex : Z)
  : double * fexcept :=
  let '(mrs', e') := shr_fexp prec emax mx ex loc_Exact in
  let l' := loc_of_shr_record mrs' in
  let inexact := is_inexact l' in
  let underflow := inexact && tiny_after_rounding rm sx mx ex in
  let '(mrs'', e'') :=
    shr_fexp prec emax (round_mantissa rm sx (shr_m mrs') l') e' loc_Exact in
  match shr_m mrs'' with
  | Z0 => (S754_zero sx, mkfexcept false false false underflow inexact)
  | Zpos m =>
      if e'' <=? emax - prec
      then (S754_finite sx m e'', mkfexcept false false false underflow inexact)
      else (overflow_result rm sx, mkfexcept false false true false true)
  | Zneg _ => (S754_nan, mkfexcept true false false false false)
  end.

Definition binary_round_flagged (rm : rounding_mode) (sx : bool)
           (mx : positive) (ex : Z) : double * fexcept :=
  let '(mz, ez) :=
    shl_align mx ex (fexp prec emax (Zpos (digits2_pos mx) + ex)) in
  round_flagged rm sx (Zpos mz) ez.

(** The sign of an exact zero sum of operands of opposite signs: negative
    only when rounding downward. *)
Definition exact_zero_sign (rm : rounding_mode) : bool :=
  match rm with FE_DOWNWARD => true | _ => false end.

(** The invalid operations (Infinity - Infinity, 0 * Infinity) deliver NaN
    and signal invalid. *)
Definition invalid_operation : double * fexcept :=
  (S754_nan, mkfexcept true false false false false).

(** [x + y] in the rounding direction [rm], with the exceptions signalled.
    A NaN operand is taken as quiet: it propagates and signals nothing. *)
Definition add_flagged (rm : rounding_mode) (x y : double) : double * fexcept :=
  match x, y with
  | S754_nan, _ | _, S754_nan => (S754_nan, no_except)
  | S754_infinity sx, S754_infinity sy =>
      if Bool.eqb sx sy then (x, no_except) else invalid_operation
  | S754_infinity _, _ => (x, no_except)
  | _, S754_infinity _ => (y, no_except)
  | S754_zero sx, S754_zero sy =>
      if Bool.eqb sx sy then (x, no_except)
      else (S754_zero (exact_zero_sign rm), no_except)
  | S754_zero _, _ => (y, no_except)
  | _, S754_zero _ => (x, no_except)
  | S754_finite sx mx ex, S754_finite sy my ey =>
      let ez := Z.min ex ey in
      match cond_Zopp sx (Zpos (fst (shl_align mx ex ez)))
            + cond_Zopp sy (Zpos (fst (shl_align my ey ez))) with
      | Z0 => (S754_zero (exact_zero_sign rm), no_except)
      | Zpos p => binary_round_flagged rm false p ez
      | Zneg p => binary_round_flagged rm true p ez
      end
  end.

(** [x * y] in the rounding direction [rm], with the exceptions signalled. *)
Definition mul_flagged (rm : rounding_mode) (x y : double) : double * fexcept :=
  match x, y with
  | S754_nan, _ | _, S754_nan => (S754_nan, no_except)
  | S754_infinity sx, S754_infinity sy => (S754_infinity (xorb sx sy), no_except)
  | S754_infinity sx, S754_finite sy _ _ => (S754_infinity (xorb sx sy), no_except)
  | S754_finite sx _ _, S754_infinity sy => (S754_infinity (xorb sx sy), no_except)
  | S754_infinity _, S754_zero _ => invalid_operation
  | S754_zero _, S754_infinity _ => invalid_operation
  | S754_finite sx _ _, S754_zero sy => (S754_zero (xorb sx sy), no_except)
  | S754_zero sx, S754_finite sy _ _ => (S754_zero (xorb sx sy), no_except)
  | S754_zero sx, S754_zero sy => (S754_zero (xorb sx sy), no_except)
  | S754_finite sx mx ex, S754_finite sy my ey =>
      round_flagged rm (xorb sx sy) (Zpos (mx * my)) (ex + ey)
  end.

(** The loop of [std::accumulate] and the function itself, in the rounding
    direction [rm], started with the flags [fl]: the result and the flags
    at the end. *)
Fixpoint accumulate_flagged (rm : rounding_mode) (first : list double)
         (init : double) (fl : fexcept) : double * fexcept :=
  match first with
  | [] => (init, fl)
  | x :: next =>
      let '(s, e) := add_flagged rm init x in
      accumulate_flagged rm next s (fexcept_or fl e)
  end.

Definition example_cpp_function_flagged (rm : rounding_mode) (input : int)
           (data : list double) (fl : fexcept) : double * fexcept :=
  let '(sum, fl') := accumulate_flagged rm data zero fl in
  let '(r, e) := mul_flagged rm (static_cast_double input) sum in
  (r, fexcept_or fl' e).

(** ** Execution against the caller's memory and the floating-point
    environment

    The run of [example_cpp_function_exec], with the floating-point
    environment threaded through the arithmetic. *)

Section Execution_fenv.

Context {G : Type}.

Definition MF (A : Type) : Type := fenv -> @M G (A * fenv).

Definition retF {A : Type} (a : A) : MF A := fun fe => ret (a, fe).

Definition bindF {A B : Type} (c : MF A) (k : A -> MF B) : MF B :=
  fun fe => bind (c fe) (fun afe => k (fst afe) (snd afe)).

(** An action on the memory leaves the floating-point environment alone. *)
Definition liftF {A : Type} (c : @M G A) : MF A :=
  fun fe => bind c (fun a => ret (a, fe)).

(** [x + y] and [x * y] on doubles: rounded as the environment says, the
    exceptions of the operation added to the flags. *)
Definition fadd (x y : double) : MF double :=
  fun fe => let '(r, e) := add_flagged (rounding fe) x y in ret (r, raise e fe).

Definition fmul (x y : double) : MF double :=
  fun fe => let '(r, e) := mul_flagged (rounding fe) x y in ret (r, raise e fe).

Fixpoint accumulate_fenv (fuel : nat) (first last : nat) (init : double)
  : MF double :=
  if Nat.eqb first last then retF init
  else
    match fuel with
    | O => liftF out_of_fuel
    | S fuel' =>
        bindF (liftF (deref first)) (fun x =>
        bindF (fadd init x) (fun init' =>
        accumulate_fenv fuel' (S first) last init'))
    end.

(** The conversion of the multiplier is exact: it does not depend on the
    rounding direction and signals nothing. *)
Definition example_cpp_function_fenv (fuel : nat) (input : int) : MF double :=
  bindF (liftF vec_begin) (fun first =>
  bindF (liftF vec_end) (fun last =>
  bindF (accumulate_fenv fuel first last zero) (fun sum =>
  fmul (static_cast_double input) sum))).

End Execution_fenv.

(** ** Further notions used in the statements *)

Definition is_zero (x : double) : bool :=
  match x with S754_zero _ => true | _ => false end.

(** [x] is the infinity of sign [s] ([false] for +Infinity). *)
Definition is_infinity_of (s : bool) (x : double) : bool :=
  match x with S754_infinity s' => Bool.eqb s s' | _ => false end.

(** No running sum is the infinity of sign [s]. *)
Definition never_reaches (s : bool) (data : list double) : bool :=
  forallb (fun r => negb (is_infinity_of s r)) (running_sums data zero).

(** The integer part of a double, rounded toward zero (0 on infinities and
    NaN). *)
Definition double_to_Z (x : double) : Z :=
  match x with
  | S754_finite s m e => cond_Zopp s (Z.shiftl (Zpos m) e)
  | _ => 0
  end.

(** Integers of magnitude below [2^52]. *)
Definition small (z : Z) : bool := Z.abs z <? 2 ^ 52.

(** The successive values of an exact integer sum: the initial value and the
    sum after each element. *)
Fixpoint Z_running_sums (zs : list Z) (acc : Z) : list Z :=
  acc :: match zs with
         | [] => []
         | z :: rest => Z_running_sums rest (acc + z)
         end.

(** The binary64 representation of the nonzero integer of sign [sx] and
    magnitude [p], for [p] below [2^52]: the mantissa shifted to 53 bits. *)
Definition canon (sx : bool) (p : positive) : double :=
  S754_finite sx (Pos.iter xO p (lshift p)) (Zneg (lshift p)).

(** ** The two scenarios of the specification *)

Example scenario_3_123 :
  example_cpp_function (Int.repr 3) [d_one; d_two; d_three] = of_Z 18.
Proof. vm_compute. reflexivity. Qed.

Example scenario_m2_halves :
  example_cpp_function (Int.repr (-2)) [d_half; d_half] = of_Z (-2).
Proof. vm_compute. reflexivity. Qed.

(** ** Facts about [int] *)

Section Int_facts.

Lemma wrap_in_range (z : Z) : Int.in_range (Int.wrap z) = true.
Proof.
  unfold Int.in_range, Int.wrap, Int.min_signed, Int.max_signed.
  assert (H : 0 <= (z + Int.half_modulus) mod Int.modulus < Int.modulus)
    by (apply Z.mod_pos_bound; reflexivity).
  assert (Hm : Int.modulus = 2 * Int.half_modulus) by reflexivity.
  apply andb_true_intro; split; apply Z.leb_le; lia.
Qed.

Lemma wrap_small (z : Z) : Int.in_range z = true -> Int.wrap z = z.
Proof.
  unfold Int.in_range, Int.wrap, Int.min_signed, Int.max_signed. intros H.
  apply andb_prop in H. destruct H as [Hlo Hhi].
  apply Z.leb_le in Hlo. apply Z.leb_le in Hhi.
  assert (Hm : Int.modulus = 2 * Int.half_modulus) by reflexivity.
  rewrite Z.mod_small by lia. lia.
Qed.

Lemma signed_repr_wrap (z : Z) : Int.signed (Int.repr z) = Int.wrap z.
Proof.
  unfold Int.repr.
  destruct (bool_dec (Int.in_range (Int.wrap z)) true) as [H|H].
  - reflexivity.
  - elim H. apply wrap_in_range.
Qed.

Lemma signed_repr (z : Z) : Int.in_range z = true -> Int.signed (Int.repr z) = z.
Proof. intros H. rewrite signed_repr_wrap. now apply wrap_small. Qed.

End Int_facts.

(** ** Facts about binary64 arithmetic *)

Section Rounding_facts.

Lemma shr_1_nonneg (mrs : shr_record) :
  0 <= shr_m mrs -> 0 <= shr_m (shr_1 mrs).
Proof.
  destruct mrs as [m r s]. simpl.
  destruct m as [|p|p]; [ | destruct p | ]; simpl; lia.
Qed.

Lemma iter_pos_shr_1_nonneg (n : positive) :
  forall mrs, 0 <= shr_m mrs -> 0 <= shr_m (iter_pos shr_1 n mrs).
Proof.
  induction n as [n IH|n IH|]; intros mrs H; simpl.
  - apply IH, IH, shr_1_nonneg, H.
  - apply IH, IH, H.
  - apply shr_1_nonneg, H.
Qed.

Lemma shr_m_record_of_loc (m : Z) (l : location) :
  shr_m (shr_record_of_loc m l) = m.
Proof. destruct l as [|[]]; reflexivity. Qed.

Lemma shr_fexp_nonneg (m e : Z) (l : location) :
  0 <= m -> 0 <= shr_m (fst (shr_fexp prec emax m e l)).
Proof.
  intros H. unfold shr_fexp, shr.
  destruct (fexp prec emax (Zdigits2 m + e) - e) as [|n|n]; simpl;
    try (rewrite shr_m_record_of_loc; exact H).
  apply iter_pos_shr_1_nonneg. rewrite shr_m_record_of_loc. exact H.
Qed.

Lemma round_nearest_even_nonneg (m : Z) (l : location) :
  0 <= m -> 0 <= round_nearest_even m l.
Proof.
  intros H. destruct l as [|[]]; simpl; try lia.
  destruct (Z.even m); lia.
Qed.

(** Rounding a nonnegative mantissa never produces NaN. *)
Lemma binary_round_aux_not_nan (sx : bool) (mx ex : Z) (lx : location) :
  0 <= mx -> is_nan (binary_round_aux prec emax sx mx ex lx) = false.
Proof.
  intros H. unfold binary_round_aux.
  pose proof (shr_fexp_nonneg mx ex lx H) as H1.
  destruct (shr_fexp prec emax mx ex lx) as [mrs' e']. simpl in H1.
  pose proof (shr_fexp_nonneg _ e' loc_Exact
                (round_nearest_even_nonneg _ (loc_of_shr_record mrs') H1)) as H2.
  destruct (shr_fexp prec emax _ e' loc_Exact) as [mrs'' e'']. simpl in H2.
  destruct (shr_m mrs'') as [|m|m]; try reflexivity.
  - destruct (e'' <=? emax - prec); reflexivity.
  - lia.
Qed.

Lemma binary_round_not_nan (sx : bool) (mx : positive) (ex : Z) :
  is_nan (binary_round prec emax sx mx ex) = false.
Proof.
  unfold binary_round.
  destruct (shl_align mx ex _) as [mz ez].
  apply binary_round_aux_not_nan. lia.
Qed.

Lemma binary_normalize_not_nan (m e : Z) (szero : bool) :
  is_nan (binary_normalize prec emax m e szero) = false.
Proof.
  destruct m; simpl; [reflexivity | apply binary_round_not_nan ..].
Qed.

End Rounding_facts.

(** Integers of less than 53 bits convert without rounding. *)
Section Conversion_facts.

Lemma digits2_pos_lower (p : positive) :
  2 ^ (Zpos (digits2_pos p) - 1) <= Zpos p.
Proof.
  induction p as [p IH|p IH|]; simpl digits2_pos;
    try (rewrite Pos2Z.inj_succ;
         replace (Z.succ (Zpos (digits2_pos p)) - 1)
           with (Z.succ (Zpos (digits2_pos p) - 1)) by lia;
         rewrite Z.pow_succ_r by lia; lia).
  simpl. lia.
Qed.

Lemma digits2_pos_iter_xO (k p : positive) :
  digits2_pos (Pos.iter xO p k) = (digits2_pos p + k)%positive.
Proof.
  induction k as [|k IH] using Pos.peano_ind.
  - simpl. lia.
  - rewrite Pos.iter_succ. simpl. rewrite IH. lia.
Qed.

Lemma iter_xO_value (k p : positive) :
  Zpos (Pos.iter xO p k) = Zpos p * 2 ^ Zpos k.
Proof.
  induction k as [|k IH] using Pos.peano_ind.
  - simpl. lia.
  - rewrite Pos.iter_succ, Pos2Z.inj_xO, IH, Pos2Z.inj_succ, Z.pow_succ_r; lia.
Qed.

Lemma shr_fexp_canonical (m : positive) (e : Z) :
  canonical_mantissa prec emax m e = true ->
  shr_fexp prec emax (Zpos m) e loc_Exact
  = (Build_shr_record (Zpos m) false false, e).
Proof.
  unfold canonical_mantissa, shr_fexp. intros H. apply Z.eqb_eq in H.
  simpl Zdigits2. rewrite H, Z.sub_diag. reflexivity.
Qed.

(** A mantissa that is already in canonical form is left alone. *)
Lemma binary_round_aux_canonical (sx : bool) (m : positive) (e : Z) :
  bounded prec emax m e = true ->
  binary_round_aux prec emax sx (Zpos m) e loc_Exact = S754_finite sx m e.
Proof.
  unfold bounded. intros H. apply andb_prop in H. destruct H as [Hc He].
  unfold binary_round_aux.
  rewrite (shr_fexp_canonical m e Hc).
  cbn [shr_m loc_of_shr_record round_nearest_even].
  rewrite (shr_fexp_canonical m e Hc).
  cbn [shr_m]. now rewrite He.
Qed.

Lemma binary_round_small (sx : bool) (p : positive) :
  Zpos p < 2 ^ 52 ->
  binary_round prec emax sx p 0
  = S754_finite sx (Pos.iter xO p (lshift p)) (Zneg (lshift p)).
Proof.
  intros Hp.
  pose proof (digits2_pos_lower p) as Hd.
  assert (Hd52 : Zpos (digits2_pos p) <= 52).
  { destruct (Z_le_gt_dec (Zpos (digits2_pos p)) 52) as [H|H]; [exact H|].
    exfalso.
    assert (2 ^ 52 <= 2 ^ (Zpos (digits2_pos p) - 1))
      by (apply Z.pow_le_mono_r; lia).
    lia. }
  assert (Hk : Zpos (lshift p) = 53 - Zpos (digits2_pos p))
    by (unfold lshift, prec; rewrite Z2Pos.id; lia).
  assert (Hf : fexp prec emax (Zpos (digits2_pos p) + 0) = Zneg (lshift p)).
  { unfold fexp, SpecFloat.emin, prec, emax. lia. }
  unfold binary_round. rewrite Hf. unfold shl_align. simpl Z.sub.
  apply binary_round_aux_canonical.
  unfold bounded, canonical_mantissa. rewrite digits2_pos_iter_xO.
  apply andb_true_intro; split.
  - apply Z.eqb_eq. unfold fexp, SpecFloat.emin, prec, emax. lia.
  - apply Z.leb_le. unfold prec, emax. lia.
Qed.

Lemma int_bounds (i : int) : - 2 ^ 31 <= Int.signed i <= 2 ^ 31 - 1.
Proof.
  destruct i as [z Hz]. simpl. unfold Int.in_range in Hz.
  apply andb_prop in Hz. destruct Hz as [Hlo Hhi].
  apply Z.leb_le in Hlo. apply Z.leb_le in Hhi.
  change Int.min_signed with (- 2 ^ 31) in Hlo.
  change Int.max_signed with (2 ^ 31 - 1) in Hhi. lia.
Qed.

(** [static_cast<double>] of a positive [int] is a positive finite double
    [m * 2^e] with [e < 0] whose value is the integer: [m = i * 2^(-e)]. *)
Lemma static_cast_double_pos (i : int) :
  0 < Int.signed i ->
  exists m e, static_cast_double i = S754_finite false m e
              /\ Zpos m = Int.signed i * 2 ^ (- e).
Proof.
  intros Hpos. pose proof (int_bounds i) as Hb.
  unfold static_cast_double, of_Z.
  destruct (Int.signed i) as [|p|p]; try lia.
  exists (Pos.iter xO p (lshift p)), (Zneg (lshift p)).
  split.
  - simpl. apply binary_round_small. lia.
  - rewrite iter_xO_value. reflexivity.
Qed.

Lemma static_cast_double_neg (i : int) :
  Int.signed i < 0 ->
  exists m e, static_cast_double i = S754_finite true m e
              /\ Zpos m = - Int.signed i * 2 ^ (- e).
Proof.
  intros Hneg. pose proof (int_bounds i) as Hb.
  unfold static_cast_double, of_Z.
  destruct (Int.signed i) as [|p|p]; try lia.
  exists (Pos.iter xO p (lshift p)), (Zneg (lshift p)).
  split.
  - simpl. apply binary_round_small. lia.
  - rewrite iter_xO_value. reflexivity.
Qed.

Lemma static_cast_double_zero (i : int) :
  Int.signed i = 0 -> static_cast_double i = zero.
Proof. unfold static_cast_double. intros ->. reflexivity. Qed.

(** The sign of the converted multiplier is the sign of the integer, and
    the conversion never yields an infinity or NaN. *)
Lemma static_cast_double_cases (i : int) :
  (Int.signed i = 0 /\ static_cast_double i = zero)
  \/ (exists m e, static_cast_double i = S754_finite (Int.signed i <? 0) m e).
Proof.
  destruct (Z.lt_trichotomy (Int.signed i) 0) as [H|[H|H]].
  - right. destruct (static_cast_double_neg i H) as (m & e & Hm & _).
    exists m, e. rewrite Hm. apply Z.ltb_lt in H. now rewrite H.
  - left. split; [exact H | now apply static_cast_double_zero].
  - right. destruct (static_cast_double_pos i H) as (m & e & Hm & _).
    exists m, e. rewrite Hm.
    assert (Hf : (Int.signed i <? 0) = false) by (apply Z.ltb_ge; lia).
    now rewrite Hf.
Qed.

End Conversion_facts.

(** ** Facts about [add], [mul] and [accumulate] *)

Section Arithmetic_facts.

Lemma add_nan_l (x : double) : add nan x = nan.
Proof. reflexivity. Qed.

Lemma add_nan_r (x : double) : add x nan = nan.
Proof. destruct x; reflexivity. Qed.

Lemma mul_nan_r (x : double) : mul x nan = nan.
Proof. destruct x; reflexivity. Qed.

Lemma is_nan_eq (x : double) : is_nan x = true -> x = nan.
Proof. destruct x; simpl; intros H; try discriminate H; reflexivity. Qed.

(** The sum of two doubles is NaN only if one of them is, or if they are
    the two infinities of opposite sign. *)
Lemma add_not_nan (x y : double) :
  is_nan x = false -> is_nan y = false ->
  (forall s, x = S754_infinity s -> y <> S754_infinity (negb s)) ->
  is_nan (add x y) = false.
Proof.
  intros Hx Hy Hinf.
  destruct x as [sx|sx| |sx mx ex]; try discriminate Hx;
    destruct y as [sy|sy| |sy my ey]; try discriminate Hy;
    try reflexivity.
  - destruct sx, sy; reflexivity.
  - destruct sx, sy; try reflexivity;
      exfalso; eapply Hinf; reflexivity.
  - unfold add, SFadd. apply binary_normalize_not_nan.
Qed.

Lemma add_infinity_l (y : double) :
  is_nan y = false -> y <> neg_infinity -> add infinity y = infinity.
Proof.
  intros Hy Hn. destruct y as [s|s| |s m e]; try reflexivity.
  - destruct s; [now elim Hn | reflexivity].
  - discriminate Hy.
Qed.

Lemma add_infinity_r (x : double) :
  is_nan x = false -> x <> neg_infinity -> add x infinity = infinity.
Proof.
  intros Hx Hn. destruct x as [s|s| |s m e]; try reflexivity.
  - destruct s; [now elim Hn | reflexivity].
  - discriminate Hx.
Qed.

Lemma accumulate_nan (data : list double) : accumulate data nan = nan.
Proof. induction data as [|x next IH]; simpl; [reflexivity | exact IH]. Qed.

Lemma accumulate_app (l1 l2 : list double) (init : double) :
  accumulate (l1 ++ l2) init = accumulate l2 (accumulate l1 init).
Proof.
  revert init. induction l1 as [|x l1 IH]; intros init; simpl;
    [reflexivity | apply IH].
Qed.

(** The loop of [std::accumulate] is the left fold of the addition. *)
Lemma accumulate_fold_left (data : list double) (init : double) :
  accumulate data init = fold_left add data init.
Proof.
  revert init. induction data as [|x next IH]; intros init; simpl;
    [reflexivity | apply IH].
Qed.

Lemma accumulate_exists_nan (data : list double) (init : double) :
  Exists (fun x => is_nan x = true) data -> accumulate data init = nan.
Proof.
  intros H. revert init.
  induction H as [x next Hx | x next _ IH]; intros init; simpl.
  - rewrite (is_nan_eq x Hx), add_nan_r. apply accumulate_nan.
  - apply IH.
Qed.

End Arithmetic_facts.

Lemma last_running_sums (data : list double) :
  forall init d, last (running_sums data init) d = accumulate data init.
Proof.
  induction data as [|x next IH]; intros init d; [reflexivity|].
  specialize (IH (add init x) d).
  destruct next as [|y next]; [reflexivity | exact IH].
Qed.

(** Once the running sum is neither NaN nor [-Infinity], it reaches
    [+Infinity] at the first [+Infinity] element and stays there, as long as
    no element is NaN or [-Infinity] and no running sum is [-Infinity]. *)
Lemma accumulate_pos_infinity (data : list double) :
  forall init,
    is_nan init = false ->
    forallb (fun x => negb (is_nan x) && negb (is_neg_infinity x)) data = true ->
    forallb (fun s => negb (is_neg_infinity s)) (running_sums data init) = true ->
    init = infinity \/ existsb is_pos_infinity data = true ->
    accumulate data init = infinity.
Proof.
  induction data as [|x next IH]; intros init Hinit Hdata Hrun Hinf.
  - destruct Hinf as [H|H]; [exact H | discriminate H].
  - simpl in Hdata. apply andb_prop in Hdata. destruct Hdata as [Hx Hnext].
    apply andb_prop in Hx. destruct Hx as [Hxnan Hxinf].
    apply negb_true_iff in Hxnan. apply negb_true_iff in Hxinf.
    change (running_sums (x :: next) init)
      with (init :: running_sums next (add init x)) in Hrun.
    simpl in Hrun. apply andb_prop in Hrun. destruct Hrun as [Hi Hrun].
    apply negb_true_iff in Hi.
    assert (Hxn : x <> neg_infinity) by (intros ->; discriminate Hxinf).
    assert (Hin : init <> neg_infinity) by (intros ->; discriminate Hi).
    simpl. apply IH; try assumption.
    + apply add_not_nan; try assumption.
      intros s -> ->. destruct s; [now apply Hin | now apply Hxn].
    + destruct Hinf as [->|H].
      * left. now apply add_infinity_l.
      * simpl in H. apply orb_prop in H. destruct H as [H|H]; [left | now right].
        assert (Hx : x = infinity)
          by (destruct x as [s|[]| |s m e]; try discriminate H; reflexivity).
        rewrite Hx. now apply add_infinity_r.
Qed.

(** ** Facts about the execution *)

Section Execution_facts.

Context {G : Type}.

Lemma skipn_nth_error (l : list double) (n : nat) (x : double) :
  nth_error l n = Some x -> skipn n l = x :: skipn (S n) l.
Proof.
  revert n. induction l as [|y l IH]; intros [|n] H; try discriminate H.
  - now injection H as ->.
  - simpl in H. apply IH in H. exact H.
Qed.

(** With fuel for the remaining elements the loop returns the fold of the
    remaining elements, leaves the world as it was and reads each remaining
    position once, in order. *)
Lemma accumulate_exec_spec (w : world G) (fuel : nat) :
  forall (first : nat) (init : double) (reads : list nat),
    (first <= length (vec w))%nat ->
    (length (vec w) - first <= fuel)%nat ->
    accumulate_exec fuel first (length (vec w)) init w reads
    = Returned (accumulate (skipn first (vec w)) init) w
               (reads ++ seq first (length (vec w) - first)).
Proof.
  induction fuel as [|fuel IH]; intros first init reads Hle Hfuel.
  - assert (first = length (vec w)) as -> by lia.
    simpl. rewrite Nat.eqb_refl, skipn_all, Nat.sub_diag, app_nil_r.
    reflexivity.
  - simpl. destruct (Nat.eqb_spec first (length (vec w))) as [->|Hne].
    + rewrite skipn_all, Nat.sub_diag, app_nil_r. reflexivity.
    + assert (Hlt : (first < length (vec w))%nat) by lia.
      destruct (nth_error (vec w) first) as [x|] eqn:Hx;
        [ | apply nth_error_None in Hx; lia ].
      unfold bind, deref. rewrite Hx.
      rewrite IH by lia.
      rewrite (skipn_nth_error _ _ _ Hx). simpl accumulate.
      replace (length (vec w) - first)%nat
        with (S (length (vec w) - S first)) by lia.
      simpl seq. rewrite <- app_assoc. reflexivity.
Qed.

Lemma example_cpp_function_exec_spec (w : world G) (fuel : nat) (input : int)
      (reads : list nat) :
  (length (vec w) <= fuel)%nat ->
  example_cpp_function_exec fuel input w reads
  = Returned (example_cpp_function input (vec w)) w
             (reads ++ seq 0 (length (vec w))).
Proof.
  intros Hfuel. unfold example_cpp_function_exec, bind, vec_begin, vec_end, ret.
  rewrite accumulate_exec_spec by lia.
  rewrite Nat.sub_0_r. reflexivity.
Qed.

End Execution_facts.

(** ** Facts about the floating-point environment *)

Section Fenv_facts.

Context {G : Type}.




Lemma round_mantissa_nearest (sx : bool) (mx : Z) (lx : location) :
  round_mantissa FE_TONEAREST sx mx lx = round_nearest_even mx lx.
Proof. now destruct lx. Qed.

Lemma round_flagged_nearest (sx : bool) (mx ex : Z) :
  fst (round_flagged FE_TONEAREST sx mx ex)
  = binary_round_aux prec emax sx mx ex loc_Exact.
Proof.
  unfold round_flagged, binary_round_aux.
  destruct (shr_fexp prec emax mx ex loc_Exact) as [mrs' e'].
  rewrite round_mantissa_nearest.
  destruct (shr_fexp prec emax _ e' loc_Exact) as [mrs'' e''].
  destruct (shr_m mrs'') as [|m|m]; try reflexivity.
  destruct (e'' <=? emax - prec); reflexivity.
Qed.

Lemma binary_round_flagged_nearest (sx : bool) (mx : positive) (ex : Z) :
  fst (binary_round_flagged FE_TONEAREST sx mx ex)
  = binary_round prec emax sx mx ex.
Proof.
  unfold binary_round_flagged, binary_round.
  destruct (shl_align mx ex _) as [mz ez]. apply round_flagged_nearest.
Qed.

(** Under the default rounding mode the flagged operations compute [add]
    and [mul]. *)
Lemma add_flagged_nearest (x y : double) :
  fst (add_flagged FE_TONEAREST x y) = add x y.
Proof.
  destruct x as [sx|sx| |sx mx ex], y as [sy|sy| |sy my ey];
    try reflexivity; try (now destruct sx, sy).
  unfold add_flagged, add, SFadd.
  destruct (cond_Zopp sx (Zpos (fst (shl_align mx ex (Z.min ex ey))))
            + cond_Zopp sy (Zpos (fst (shl_align my ey (Z.min ex ey)))))
    as [|p|p]; [reflexivity | apply binary_round_flagged_nearest ..].
Qed.

Lemma mul_flagged_nearest (x y : double) :
  fst (mul_flagged FE_TONEAREST x y) = mul x y.
Proof.
  destruct x as [sx|sx| |sx mx ex], y as [sy|sy| |sy my ey];
    try reflexivity.
  apply round_flagged_nearest.
Qed.

Lemma accumulate_flagged_nearest (data : list double) :
  forall init fl,
    fst (accumulate_flagged FE_TONEAREST data init fl) = accumulate data init.
Proof.
  induction data as [|x next IH]; intros init fl; [reflexivity | ].
  cbn [accumulate_flagged accumulate].
  rewrite <- (add_flagged_nearest init x).
  destruct (add_flagged FE_TONEAREST init x) as [s e]. apply IH.
Qed.

Lemma example_cpp_function_flagged_nearest (input : int) (data : list double)
      (fl : fexcept) :
  fst (example_cpp_function_flagged FE_TONEAREST input data fl)
  = example_cpp_function input data.
Proof.
  unfold example_cpp_function_flagged, example_cpp_function.
  rewrite <- (accumulate_flagged_nearest data zero fl).
  destruct (accumulate_flagged FE_TONEAREST data zero fl) as [sum fl'].
  cbn [fst]. rewrite <- mul_flagged_nearest.
  now destruct (mul_flagged FE_TONEAREST (static_cast_double input) sum).
Qed.



Lemma accumulate_fenv_spec (w : world G) (fuel : nat) :
  forall (first : nat) (init : double) (fe : fenv) (reads : list nat),
    (first <= length (vec w))%nat ->
    (length (vec w) - first <= fuel)%nat ->
    accumulate_fenv fuel first (length (vec w)) init fe w reads
    = Returned
        (fst (accumulate_flagged (rounding fe) (skipn first (vec w)) init
                (flags fe)),
         mkfenv (rounding fe)
           (snd (accumulate_flagged (rounding fe) (skipn first (vec w)) init
                   (flags fe))))
        w (reads ++ seq first (length (vec w) - first)).
Proof.
  induction fuel as [|fuel IH]; intros first init fe reads Hle Hfuel.
  - assert (first = length (vec w)) as -> by lia.
    cbn [accumulate_fenv]. rewrite Nat.eqb_refl, skipn_all, Nat.sub_diag, app_nil_r.
    now destruct fe.
  - cbn [accumulate_fenv].
    destruct (Nat.eqb_spec first (length (vec w))) as [->|Hne].
    + rewrite skipn_all, Nat.sub_diag, app_nil_r. now destruct fe.
    + assert (Hlt : (first < length (vec w))%nat) by lia.
      destruct (nth_error (vec w) first) as [x|] eqn:Hx;
        [ | apply nth_error_None in Hx; lia ].
      rewrite (skipn_nth_error _ _ _ Hx). cbn [accumulate_flagged].
      unfold bindF, liftF, bind, deref, fadd, ret. rewrite Hx. cbn [fst snd].
      destruct (add_flagged (rounding fe) init x) as [s e] eqn:Hadd.
      cbn [fst snd]. rewrite IH by lia. cbn [rounding flags raise].
      replace (length (vec w) - first)%nat
        with (S (length (vec w) - S first)) by lia.
      cbn [seq]. rewrite <- app_assoc. reflexivity.
Qed.

Lemma example_cpp_function_fenv_spec (w : world G) (fuel : nat) (input : int)
      (fe : fenv) (reads : list nat) :
  (length (vec w) <= fuel)%nat ->
  example_cpp_function_fenv fuel input fe w reads
  = Returned
      (fst (example_cpp_function_flagged (rounding fe) input (vec w) (flags fe)),
       mkfenv (rounding fe)
         (snd (example_cpp_function_flagged (rounding fe) input (vec w)
                 (flags fe))))
      w (reads ++ seq 0 (length (vec w))).
Proof.
  intros Hfuel.
  unfold example_cpp_function_fenv, bindF, liftF, bind, vec_begin, vec_end, ret.
  cbn [fst snd]. rewrite accumulate_fenv_spec by lia.
  cbn [fst snd skipn]. rewrite Nat.sub_0_r.
  unfold example_cpp_function_flagged, fmul, ret.
  destruct (accumulate_flagged (rounding fe) (vec w) zero (flags fe)) as [sum fl'].
  cbn [fst snd rounding flags].
  destruct (mul_flagged (rounding fe) (static_cast_double input) sum) as [r e].
  reflexivity.
Qed.

(** Under the default rounding mode the run with the environment returns
    what the run without it returns, reads the same positions and leaves the
    same memory. *)
Lemma example_cpp_function_fenv_exec (w : world G) (fuel : nat) (input : int)
      (fe : fenv) (reads : list nat) :
  (length (vec w) <= fuel)%nat ->
  rounding fe = FE_TONEAREST ->
  exists (r : double) (fe' : fenv) (reads' : list nat),
    example_cpp_function_fenv fuel input fe w reads = Returned (r, fe') w reads'
    /\ example_cpp_function_exec fuel input w reads = Returned r w reads'.
Proof.
  intros Hfuel Hrm.
  rewrite example_cpp_function_fenv_spec, example_cpp_function_exec_spec
    by exact Hfuel.
  rewrite Hrm, example_cpp_function_flagged_nearest.
  eexists _, _, _. split; reflexivity.
Qed.

End Fenv_facts.

(** ** Properties of [example_cpp_function] *)

Lemma existsb_false_forallb_negb {A : Type} (p q : A -> bool) (l : list A) :
  existsb p l = false -> existsb q l = false ->
  forallb (fun x => negb (p x) && negb (q x)) l = true.
Proof.
  induction l as [|x l IH]; simpl; intros Hp Hq; [reflexivity|].
  apply orb_false_elim in Hp. destruct Hp as [Hpx Hpl].
  apply orb_false_elim in Hq. destruct Hq as [Hqx Hql].
  rewrite Hpx, Hqx. simpl. now apply IH.
Qed.

(** C1: for every [int] multiplier and every vector of doubles the function
    returns the multiplier converted to double times the sum of the
    elements, the sum being the left-to-right fold of floating-point
    addition from 0.0 and the product being the one multiplication of
    [scale_sum]. *)
Theorem example_cpp_function_scale_sum (input : int) (values : list double) :
  example_cpp_function input values = scale_sum (Int.signed input) values
  /\ scale_sum (Int.signed input) values
     = mul (of_Z (Int.signed input)) (fold_left add values zero).
Proof.
  split; [ | reflexivity ].
  unfold example_cpp_function, scale_sum, sum, static_cast_double.
  now rewrite accumulate_fold_left.
Qed.

(** C2: on the empty vector the function returns a zero for every
    multiplier: the result compares equal to 0.0, and it is the zero of the
    format that carries the sign of the multiplier (0.0 for a multiplier
    that is not negative, -0.0 for a negative one). *)
Theorem example_cpp_function_empty (input : int) :
  eqb (example_cpp_function input []) zero = true
  /\ example_cpp_function input [] = S754_zero (Int.signed input <? 0).
Proof.
  unfold example_cpp_function. simpl accumulate.
  destruct (static_cast_double_cases input) as [[H0 Hz]|(m & e & Hf)].
  - rewrite Hz, H0. split; reflexivity.
  - rewrite Hf. destruct (Int.signed input <? 0); split; reflexivity.
Qed.

(** C3, as stated, fails: the two elements are finite, their sum overflows
    to +Infinity, and 0 times +Infinity is NaN, which does not compare equal
    to 0.0. *)
Lemma zero_multiplier_counterexample :
  forallb is_finite [max_float; max_float] = true
  /\ example_cpp_function (Int.repr 0) [max_float; max_float] = nan
  /\ eqb (example_cpp_function (Int.repr 0) [max_float; max_float]) zero = false.
Proof. vm_compute. repeat split. Qed.

(** C3, amended: for every vector of finite doubles whose left-to-right sum
    is finite (no overflow), the function at multiplier 0 returns a zero: a
    result that compares equal to 0.0, and that is the zero with the sign
    of the sum (0.0 when the sum is positive or 0.0, -0.0 when it is
    negative). *)
Theorem zero_multiplier_finite_sum (values : list double) :
  forallb is_finite values = true ->
  is_finite (accumulate values zero) = true ->
  eqb (example_cpp_function (Int.repr 0) values) zero = true
  /\ example_cpp_function (Int.repr 0) values
     = S754_zero (signbit (accumulate values zero)).
Proof.
  intros _ Hsum. unfold example_cpp_function.
  change (static_cast_double (Int.repr 0)) with zero.
  destruct (accumulate values zero) as [s|s| |s m e]; try discriminate Hsum.
  - split; reflexivity.
  - split; reflexivity.
Qed.

Lemma zero_multiplier_finite_sum_witness :
  forallb is_finite [d_one; SFopp d_two] = true
  /\ is_finite (accumulate [d_one; SFopp d_two] zero) = true
  /\ eqb (example_cpp_function (Int.repr 0) [d_one; SFopp d_two]) zero = true
  /\ example_cpp_function (Int.repr 0) [d_one; SFopp d_two]
     = S754_zero (signbit (accumulate [d_one; SFopp d_two] zero)).
Proof.
  split; [reflexivity | split; [reflexivity | ]].
  apply (zero_multiplier_finite_sum [d_one; SFopp d_two]); reflexivity.
Defined.

(** C4: if an element of the vector is NaN, the result is NaN, whatever the
    multiplier and the other elements. *)
Theorem nan_propagates (input : int) (values : list double) :
  existsb is_nan values = true ->
  is_nan (example_cpp_function input values) = true.
Proof.
  intros H. unfold example_cpp_function.
  rewrite accumulate_exists_nan.
  - now rewrite mul_nan_r.
  - apply Exists_exists. apply existsb_exists in H. exact H.
Qed.

Lemma nan_propagates_witness :
  existsb is_nan [d_one; nan; d_two] = true
  /\ is_nan (example_cpp_function (Int.repr 3) [d_one; nan; d_two]) = true.
Proof.
  split; [reflexivity | ].
  apply (nan_propagates (Int.repr 3) [d_one; nan; d_two]). reflexivity.
Defined.

(** C5, as stated, fails twice over.  In the first vector no element is
    -Infinity or NaN, but the sum of the two finite elements overflows to
    -Infinity before +Infinity is added; in the second a NaN sits next to
    +Infinity.  Both results are NaN. *)
Lemma pos_infinity_counterexample :
  (0 < Int.signed (Int.repr 1)
   /\ existsb is_pos_infinity [lowest_float; lowest_float; infinity] = true
   /\ existsb is_neg_infinity [lowest_float; lowest_float; infinity] = false
   /\ example_cpp_function (Int.repr 1) [lowest_float; lowest_float; infinity]
      = nan)
  /\ (existsb is_pos_infinity [nan; infinity] = true
      /\ existsb is_neg_infinity [nan; infinity] = false
      /\ example_cpp_function (Int.repr 1) [nan; infinity] = nan)
  /\ nan <> infinity.
Proof. vm_compute. repeat split. discriminate. Qed.

(** C5, amended: for every positive multiplier and every vector that
    contains +Infinity, contains neither -Infinity nor NaN, and whose
    running left-to-right sum never overflows to -Infinity, the function
    returns +Infinity. *)
Theorem pos_infinity_propagates (input : int) (values : list double) :
  0 < Int.signed input ->
  existsb is_pos_infinity values = true ->
  existsb is_neg_infinity values = false ->
  existsb is_nan values = false ->
  no_negative_overflow values = true ->
  example_cpp_function input values = infinity.
Proof.
  intros Hm Hinf Hninf Hnan Hrun. unfold example_cpp_function.
  rewrite (accumulate_pos_infinity values zero); auto.
  - destruct (static_cast_double_pos input Hm) as (m & e & -> & _).
    reflexivity.
  - now apply existsb_false_forallb_negb.
Qed.

Lemma pos_infinity_propagates_witness :
  0 < Int.signed (Int.repr 2)
  /\ existsb is_pos_infinity [d_one; infinity; d_two] = true
  /\ existsb is_neg_infinity [d_one; infinity; d_two] = false
  /\ existsb is_nan [d_one; infinity; d_two] = false
  /\ no_negative_overflow [d_one; infinity; d_two] = true
  /\ example_cpp_function (Int.repr 2) [d_one; infinity; d_two] = infinity.
Proof.
  repeat (split; [reflexivity | ]).
  apply (pos_infinity_propagates (Int.repr 2) [d_one; infinity; d_two]);
    reflexivity.
Defined.




(** C7: the multiplier may be any signed integer that the parameter's type
    [int] represents, from INT_MIN to INT_MAX, with no further restriction:
    every such integer is the value of an [int], and on it, with every
    vector of doubles, the function returns the contracted result. *)
Theorem multiplier_in_range (m : Z) (values : list double) :
  Int.in_range m = true ->
  Int.signed (Int.repr m) = m
  /\ example_cpp_function (Int.repr m) values = scale_sum m values.
Proof.
  intros Hm. pose proof (signed_repr m Hm) as Hs. split; [exact Hs | ].
  unfold example_cpp_function, scale_sum, sum, static_cast_double.
  now rewrite Hs, accumulate_fold_left.
Qed.

Lemma multiplier_in_range_witness :
  Int.in_range (-2147483648) = true
  /\ Int.signed (Int.repr (-2147483648)) = -2147483648
  /\ example_cpp_function (Int.repr (-2147483648)) [d_half; d_three]
     = scale_sum (-2147483648) [d_half; d_three].
Proof.
  split; [reflexivity | ].
  apply (multiplier_in_range (-2147483648) [d_half; d_three]). reflexivity.
Defined.

(** C9: the function is total.  For every [int] multiplier and every vector,
    run with fuel for one iteration per element (or more), the execution
    returns a double, the one the function computes; it does not fault or
    run out of fuel, and it reads positions 0, 1, ..., n-1 of the vector
    once each, in that order. *)
Theorem example_cpp_function_total
        (G : Type) (w : world G) (input : int) (extra : nat) :
  example_cpp_function_exec (length (vec w) + extra) input w []
  = Returned (example_cpp_function input (vec w)) w (seq 0 (length (vec w))).
Proof. rewrite example_cpp_function_exec_spec by lia. reflexivity. Qed.


(** * Further properties *)

(** ** Digits and shifts *)

Section Digit_facts.

Lemma digits2_pos_upper (p : positive) : Zpos p < 2 ^ Zpos (digits2_pos p).
Proof.
  induction p as [p IH|p IH|]; simpl digits2_pos;
    try (rewrite Pos2Z.inj_succ, Z.pow_succ_r by lia; lia).
  simpl. lia.
Qed.

Lemma Zdigits2_nonneg (m : Z) : 0 <= Zdigits2 m.
Proof. destruct m; simpl; lia. Qed.

Lemma Zdigits2_pos (m : Z) : 0 < m -> 0 < Zdigits2 m.
Proof. destruct m; simpl; lia. Qed.

Lemma Zdigits2_pos_inv (m : Z) : 0 <= m -> 0 < Zdigits2 m -> 0 < m.
Proof. destruct m; simpl; lia. Qed.

Lemma Zdigits2_mono (m m' : Z) : 0 <= m <= m' -> Zdigits2 m <= Zdigits2 m'.
Proof.
  intros [H0 Hle]. destruct m as [|p|p]; try lia.
  - apply Zdigits2_nonneg.
  - destruct m' as [|q|q]; try lia. simpl.
    destruct (Z_le_gt_dec (Zpos (digits2_pos p)) (Zpos (digits2_pos q))) as [H|H];
      [exact H | exfalso].
    pose proof (digits2_pos_lower p). pose proof (digits2_pos_upper q).
    assert (2 ^ Zpos (digits2_pos q) <= 2 ^ (Zpos (digits2_pos p) - 1))
      by (apply Z.pow_le_mono_r; lia).
    lia.
Qed.

Lemma digits2_pos_mul (p q : positive) :
  Zpos (digits2_pos p) + Zpos (digits2_pos q) - 1 <= Zpos (digits2_pos (p * q)).
Proof.
  pose proof (digits2_pos_lower p) as Hp. pose proof (digits2_pos_lower q) as Hq.
  pose proof (digits2_pos_upper (p * q)) as Hpq.
  destruct (Z_le_gt_dec (Zpos (digits2_pos p) + Zpos (digits2_pos q) - 1)
                        (Zpos (digits2_pos (p * q)))) as [H|H]; [exact H | exfalso].
  assert (H1 : 2 ^ Zpos (digits2_pos (p * q))
               <= 2 ^ ((Zpos (digits2_pos p) - 1) + (Zpos (digits2_pos q) - 1)))
    by (apply Z.pow_le_mono_r; lia).
  rewrite Z.pow_add_r in H1 by lia.
  assert (H2 : 2 ^ (Zpos (digits2_pos p) - 1) * 2 ^ (Zpos (digits2_pos q) - 1)
               <= Zpos p * Zpos q)
    by (apply Z.mul_le_mono_nonneg; try lia; apply Z.pow_nonneg; lia).
  rewrite Pos2Z.inj_mul in Hpq. lia.
Qed.

Lemma Zdigits2_shr_1 (mrs : shr_record) :
  0 <= shr_m mrs ->
  Zdigits2 (shr_m (shr_1 mrs)) = Z.max 0 (Zdigits2 (shr_m mrs) - 1).
Proof.
  destruct mrs as [m r s]. cbn [shr_m].
  destruct m as [|p|p]; [ | destruct p | ];
    cbn [shr_1 shr_m Zdigits2 digits2_pos]; rewrite ?Pos2Z.inj_succ; lia.
Qed.

Lemma iter_pos_nat {A : Type} (f : A -> A) (n : positive) :
  forall x, iter_pos f n x = Nat.iter (Pos.to_nat n) f x.
Proof.
  induction n as [n IH|n IH|]; intros x; cbn [iter_pos].
  - rewrite !IH, Pos2Nat.inj_xI, <- Nat.iter_succ_r, <- Nat.iter_add.
    f_equal. lia.
  - rewrite !IH, Pos2Nat.inj_xO, <- Nat.iter_add. f_equal. lia.
  - reflexivity.
Qed.

Lemma pos_iter_nat {A : Type} (f : A -> A) (x : A) (k : positive) :
  Pos.iter f x k = Nat.iter (Pos.to_nat k) f x.
Proof. apply Pos2Nat.inj_iter. Qed.

Lemma pos_iter_xO_add (p : positive) (j k : positive) :
  Pos.iter xO (Pos.iter xO p k) j = Pos.iter xO p (k + j).
Proof. rewrite Pos.add_comm. symmetry. apply Pos.iter_add. Qed.

Lemma nat_iter_shr_1_nonneg (n : nat) (mrs : shr_record) :
  0 <= shr_m mrs -> 0 <= shr_m (Nat.iter n shr_1 mrs).
Proof. intros H. induction n; simpl; [exact H | now apply shr_1_nonneg]. Qed.

Lemma Zdigits2_nat_iter_shr_1 (n : nat) (mrs : shr_record) :
  0 <= shr_m mrs ->
  Zdigits2 (shr_m (Nat.iter n shr_1 mrs))
  = Z.max 0 (Zdigits2 (shr_m mrs) - Z.of_nat n).
Proof.
  intros H. induction n as [|n IH].
  - simpl. pose proof (Zdigits2_nonneg (shr_m mrs)). lia.
  - cbn [Nat.iter nat_rect]. rewrite Zdigits2_shr_1 by now apply nat_iter_shr_1_nonneg.
    change (nat_rect _ mrs (fun _ => shr_1) n) with (Nat.iter n shr_1 mrs).
    rewrite IH. lia.
Qed.

(** multiplier one *)
Lemma nat_iter_shr_1_xO (n : nat) (m : positive) :
  Nat.iter n shr_1 (Build_shr_record (Zpos (Nat.iter n xO m)) false false)
  = Build_shr_record (Zpos m) false false.
Proof.
  induction n as [|n IH]; [reflexivity | ].
  rewrite Nat.iter_succ_r. exact IH.
Qed.

Lemma fexp_mono (a b : Z) : a <= b -> fexp prec emax a <= fexp prec emax b.
Proof. unfold fexp. lia. Qed.

Lemma bounded_inv (m : positive) (e : Z) :
  bounded prec emax m e = true ->
  fexp prec emax (Zpos (digits2_pos m) + e) = e /\ e <= emax - prec.
Proof.
  unfold bounded, canonical_mantissa. intros H.
  apply andb_prop in H. destruct H as [Hc He].
  split; [now apply Z.eqb_eq | now apply Z.leb_le].
Qed.

Lemma bounded_emin (m : positive) (e : Z) :
  bounded prec emax m e = true -> SpecFloat.emin prec emax <= e.
Proof.
  intros H. apply bounded_inv in H. destruct H as [H _].
  revert H. unfold fexp. lia.
Qed.

Lemma round_nearest_even_ge (m : Z) (l : location) : m <= round_nearest_even m l.
Proof. destruct l as [|[]]; simpl; try lia. destruct (Z.even m); lia. Qed.

(** Shifting to the exponent [fexp] asks for leaves a mantissa in canonical position. *)
Lemma shr_fexp_canonical_out (m e : Z) (l : location) :
  0 <= m -> e <= fexp prec emax (Zdigits2 m + e) ->
  let '(mrs, e') := shr_fexp prec emax m e l in
  0 <= shr_m mrs /\ fexp prec emax (Zdigits2 (shr_m mrs) + e') = e'.
Proof.
  intros Hm He. unfold shr_fexp, shr.
  destruct (fexp prec emax (Zdigits2 m + e) - e) as [|n|n] eqn:Hn.
  - rewrite shr_m_record_of_loc. split; [exact Hm | lia].
  - rewrite iter_pos_nat.
    assert (H0 : 0 <= shr_m (shr_record_of_loc m l))
      by (now rewrite shr_m_record_of_loc).
    split; [now apply nat_iter_shr_1_nonneg | ].
    rewrite Zdigits2_nat_iter_shr_1 by exact H0.
    rewrite shr_m_record_of_loc, positive_nat_Z.
    pose proof (Zdigits2_nonneg m) as Hd.
    revert Hn He. unfold fexp, SpecFloat.emin, prec, emax. lia.
  - lia.
Qed.

(** A right shift by fewer bits than the mantissa has leaves it positive. *)
Lemma shr_fexp_keeps_pos (m e : Z) (l : location) :
  0 < m -> SpecFloat.emin prec emax < e + Zdigits2 m ->
  0 < shr_m (fst (shr_fexp prec emax m e l)).
Proof.
  intros Hm He. unfold shr_fexp, shr.
  destruct (fexp prec emax (Zdigits2 m + e) - e) as [|n|n] eqn:Hn;
    cbn [fst]; try (now rewrite shr_m_record_of_loc).
  assert (H0 : 0 <= shr_m (shr_record_of_loc m l))
    by (rewrite shr_m_record_of_loc; lia).
  rewrite iter_pos_nat.
  apply Zdigits2_pos_inv; [now apply nat_iter_shr_1_nonneg | ].
  rewrite Zdigits2_nat_iter_shr_1 by exact H0.
  rewrite shr_m_record_of_loc, positive_nat_Z.
  revert Hn He. unfold fexp, SpecFloat.emin, prec, emax. lia.
Qed.

Lemma shr_fexp_shifted (m k : positive) (e : Z) :
  canonical_mantissa prec emax m e = true ->
  shr_fexp prec emax (Zpos (Pos.iter xO m k)) (e - Zpos k) loc_Exact
  = (Build_shr_record (Zpos m) false false, e).
Proof.
  unfold canonical_mantissa. intros H. apply Z.eqb_eq in H.
  unfold shr_fexp, shr. cbn [Zdigits2 shr_record_of_loc].
  rewrite digits2_pos_iter_xO, Pos2Z.inj_add.
  replace (Zpos (digits2_pos m) + Zpos k + (e - Zpos k))
    with (Zpos (digits2_pos m) + e) by lia.
  rewrite H. replace (e - (e - Zpos k)) with (Zpos k) by lia.
  f_equal; [ | lia].
  rewrite iter_pos_nat, pos_iter_nat. apply nat_iter_shr_1_xO.
Qed.

Lemma shl_align_value (mx : positive) (ex ez : Z) :
  ez <= ex -> Zpos (fst (shl_align mx ex ez)) = Zpos mx * 2 ^ (ex - ez).
Proof.
  intros H. unfold shl_align.
  destruct (ez - ex) as [|d|d] eqn:Hd; try lia.
  - replace (ex - ez) with 0 by lia. simpl. lia.
  - cbn [fst]. rewrite iter_xO_value. f_equal. f_equal. lia.
Qed.

End Digit_facts.

(** ** Rounding: well-formed results, no spurious zero, exact cases *)

Section Rounding_results.

Lemma binary_round_aux_valid (sx : bool) (mx ex : Z) (lx : location) :
  0 <= mx -> ex <= fexp prec emax (Zdigits2 mx + ex) ->
  valid_binary prec emax (binary_round_aux prec emax sx mx ex lx) = true.
Proof.
  intros Hm He. unfold binary_round_aux.
  pose proof (shr_fexp_canonical_out mx ex lx Hm He) as H1.
  destruct (shr_fexp prec emax mx ex lx) as [mrs' e']. destruct H1 as [H1 H1c].
  set (m2 := round_nearest_even (shr_m mrs') (loc_of_shr_record mrs')).
  assert (Hm2 : shr_m mrs' <= m2) by apply round_nearest_even_ge.
  assert (He2 : e' <= fexp prec emax (Zdigits2 m2 + e')).
  { rewrite <- H1c at 1. apply fexp_mono.
    pose proof (Zdigits2_mono (shr_m mrs') m2). lia. }
  pose proof (shr_fexp_canonical_out m2 e' loc_Exact ltac:(lia) He2) as H3.
  destruct (shr_fexp prec emax m2 e' loc_Exact) as [mrs'' e'']. destruct H3 as [H3 H3c].
  destruct (shr_m mrs'') as [|m|m] eqn:Hm3; try reflexivity.
  destruct (e'' <=? emax - prec) eqn:Hle; [ | reflexivity].
  cbn [valid_binary]. unfold bounded, canonical_mantissa. rewrite Hle.
  cbn [Zdigits2] in H3c. rewrite H3c, Z.eqb_refl. reflexivity.
Qed.

Lemma binary_round_valid (sx : bool) (mx : positive) (ex : Z) :
  valid_binary prec emax (binary_round prec emax sx mx ex) = true.
Proof.
  unfold binary_round, shl_align.
  destruct (fexp prec emax (Zpos (digits2_pos mx) + ex) - ex) as [|d|d] eqn:Hd;
    apply binary_round_aux_valid; try lia; simpl Zdigits2.
  - lia.
  - lia.
  - rewrite digits2_pos_iter_xO, Pos2Z.inj_add.
    replace (Zpos (digits2_pos mx) + Zpos d
             + fexp prec emax (Zpos (digits2_pos mx) + ex))
      with (Zpos (digits2_pos mx) + ex) by lia.
    lia.
Qed.

Lemma binary_normalize_valid (m e : Z) (szero : bool) :
  valid_binary prec emax (binary_normalize prec emax m e szero) = true.
Proof. destruct m; simpl; [reflexivity | apply binary_round_valid ..]. Qed.

Lemma binary_round_aux_keeps_pos (sx : bool) (mx ex : Z) (lx : location) :
  0 < mx -> ex <= fexp prec emax (Zdigits2 mx + ex) ->
  SpecFloat.emin prec emax < ex + Zdigits2 mx ->
  is_zero (binary_round_aux prec emax sx mx ex lx) = false.
Proof.
  intros Hm Hf He. unfold binary_round_aux.
  pose proof (shr_fexp_keeps_pos mx ex lx Hm He) as H1.
  pose proof (shr_fexp_canonical_out mx ex lx ltac:(lia) Hf) as H1c.
  destruct (shr_fexp prec emax mx ex lx) as [mrs' e']. cbn [fst] in H1.
  destruct H1c as [_ H1c].
  set (m2 := round_nearest_even (shr_m mrs') (loc_of_shr_record mrs')).
  pose proof (round_nearest_even_ge (shr_m mrs') (loc_of_shr_record mrs')) as H2.
  fold m2 in H2.
  assert (He2 : SpecFloat.emin prec emax < e' + Zdigits2 m2).
  { pose proof (Zdigits2_pos m2 ltac:(lia)).
    revert H1c. unfold fexp, SpecFloat.emin, prec, emax. lia. }
  pose proof (shr_fexp_keeps_pos m2 e' loc_Exact ltac:(lia) He2) as H3.
  destruct (shr_fexp prec emax m2 e' loc_Exact) as [mrs'' e'']. cbn [fst] in H3.
  destruct (shr_m mrs'') as [|m|m]; try lia; try reflexivity.
  destruct (e'' <=? emax - prec); reflexivity.
Qed.

Lemma binary_round_not_zero (sx : bool) (mx : positive) (ex : Z) :
  SpecFloat.emin prec emax <= ex ->
  is_zero (binary_round prec emax sx mx ex) = false.
Proof.
  intros He. unfold binary_round, shl_align.
  destruct (fexp prec emax (Zpos (digits2_pos mx) + ex) - ex) as [|d|d] eqn:Hd;
    apply binary_round_aux_keeps_pos; cbn [Zdigits2]; try lia;
    rewrite digits2_pos_iter_xO, Pos2Z.inj_add.
  - replace (Zpos (digits2_pos mx) + Zpos d
             + fexp prec emax (Zpos (digits2_pos mx) + ex))
      with (Zpos (digits2_pos mx) + ex) by lia.
    lia.
  - unfold fexp. lia.
Qed.

Lemma binary_round_aux_shifted (sx : bool) (m k : positive) (e : Z) :
  bounded prec emax m e = true ->
  binary_round_aux prec emax sx (Zpos (Pos.iter xO m k)) (e - Zpos k) loc_Exact
  = S754_finite sx m e.
Proof.
  intros H. pose proof H as H'. unfold bounded in H'.
  apply andb_prop in H'. destruct H' as [Hc He].
  unfold binary_round_aux. rewrite (shr_fexp_shifted m k e Hc).
  cbn [shr_m loc_of_shr_record round_nearest_even].
  rewrite (shr_fexp_canonical m e Hc). cbn [shr_m]. now rewrite He.
Qed.

Lemma binary_round_aux_negb (sx : bool) (mx ex : Z) (lx : location) :
  binary_round_aux prec emax (negb sx) mx ex lx
  = SFopp (binary_round_aux prec emax sx mx ex lx).
Proof.
  unfold binary_round_aux.
  destruct (shr_fexp prec emax mx ex lx) as [mrs' e'].
  destruct (shr_fexp prec emax _ e' loc_Exact) as [mrs'' e''].
  destruct (shr_m mrs'') as [|m|m]; try reflexivity.
  destruct (e'' <=? emax - prec); reflexivity.
Qed.

End Rounding_results.

(** ** The operations on well-formed doubles *)

Section Operation_facts.

Lemma of_Z_is_double (z : Z) : is_double (of_Z z) = true.
Proof. apply binary_normalize_valid. Qed.

Lemma add_is_double (x y : double) :
  is_double x = true -> is_double y = true -> is_double (add x y) = true.
Proof.
  intros Hx Hy.
  destruct x as [sx|sx| |sx mx ex], y as [sy|sy| |sy my ey];
    try reflexivity; try assumption; try (now destruct sx, sy).
  apply binary_normalize_valid.
Qed.

Lemma mul_is_double (x y : double) :
  is_double x = true -> is_double y = true -> is_double (mul x y) = true.
Proof.
  intros Hx Hy.
  destruct x as [sx|sx| |sx mx ex], y as [sy|sy| |sy my ey]; try reflexivity.
  apply binary_round_aux_valid; [lia | ].
  apply bounded_inv in Hx. apply bounded_inv in Hy.
  destruct Hx as [Hx _]. destruct Hy as [Hy _].
  pose proof (digits2_pos_mul mx my) as Hd. cbn [Zdigits2].
  revert Hx Hy. unfold fexp, SpecFloat.emin, prec, emax. lia.
Qed.

Lemma accumulate_is_double (data : list double) :
  forall init, is_double init = true -> forallb is_double data = true ->
               is_double (accumulate data init) = true.
Proof.
  induction data as [|x next IH]; intros init Hi Hd; [exact Hi | ].
  simpl in Hd. apply andb_prop in Hd. destruct Hd as [Hx Hn].
  simpl. apply IH; [now apply add_is_double | exact Hn].
Qed.

Lemma mul_one_l (x : double) : is_double x = true -> mul d_one x = x.
Proof.
  intros Hx. destruct x as [s|s| |s m e]; try reflexivity.
  change (mul d_one (S754_finite s m e))
    with (binary_round_aux prec emax s (Zpos (Pos.iter xO m 52)) (-52 + e) loc_Exact).
  replace (-52 + e) with (e - 52) by lia.
  now apply binary_round_aux_shifted.
Qed.

(** The sum of two doubles is [-0.0] only if both are. *)
Lemma add_neg_zero (x y : double) :
  is_double x = true -> is_double y = true ->
  add x y = neg_zero -> x = neg_zero /\ y = neg_zero.
Proof.
  intros Hx Hy H.
  destruct x as [sx|sx| |sx mx ex], y as [sy|sy| |sy my ey];
    unfold add in H; cbn [SFadd] in H; try discriminate H;
    try (destruct sx, sy; (discriminate H || now split)).
  exfalso.
  apply bounded_emin in Hx. apply bounded_emin in Hy.
  set (ez := Z.min ex ey) in H.
  assert (Hez : SpecFloat.emin prec emax <= ez) by (unfold ez; lia).
  destruct (cond_Zopp sx (Zpos (fst (shl_align mx ex ez)))
            + cond_Zopp sy (Zpos (fst (shl_align my ey ez)))) as [|p|p];
    cbn [binary_normalize] in H; try discriminate H.
  - pose proof (binary_round_not_zero false p ez Hez) as Hz.
    rewrite H in Hz. discriminate Hz.
  - pose proof (binary_round_not_zero true p ez Hez) as Hz.
    rewrite H in Hz. discriminate Hz.
Qed.

Lemma accumulate_not_neg_zero (data : list double) :
  forall init, is_double init = true -> init <> neg_zero ->
               forallb is_double data = true ->
               accumulate data init <> neg_zero.
Proof.
  induction data as [|x next IH]; intros init Hi Hn Hd; [exact Hn | ].
  simpl in Hd. apply andb_prop in Hd. destruct Hd as [Hx Hnext].
  simpl. apply IH; [now apply add_is_double | | exact Hnext].
  intros H. apply add_neg_zero in H; try assumption. now destruct H.
Qed.

Lemma of_Z_opp (z : Z) : z <> 0 -> of_Z (- z) = SFopp (of_Z z).
Proof.
  intros Hz. destruct z as [|p|p]; [now elim Hz | |]; simpl; unfold of_Z; simpl;
    unfold binary_round; destruct (shl_align p 0 _) as [mz ez].
  - apply (binary_round_aux_negb false).
  - change false with (negb true). rewrite binary_round_aux_negb.
    now destruct (binary_round_aux prec emax true (Z.pos mz) ez loc_Exact).
Qed.

Lemma mul_opp_l (x y : double) : mul (SFopp x) y = SFopp (mul x y).
Proof.
  destruct x as [sx|sx| |sx mx ex], y as [sy|sy| |sy my ey]; simpl;
    try reflexivity; try (now destruct sx, sy).
  unfold mul; simpl.
  replace (xorb (negb sx) sy) with (negb (xorb sx sy)) by (now destruct sx, sy).
  apply binary_round_aux_negb.
Qed.

Lemma signed_repr_opp (i : int) :
  Int.signed i <> Int.min_signed ->
  Int.signed (Int.repr (- Int.signed i)) = - Int.signed i.
Proof.
  intros Hmin. apply signed_repr. pose proof (int_bounds i) as Hb.
  unfold Int.in_range. change Int.min_signed with (- 2 ^ 31) in *.
  change Int.max_signed with (2 ^ 31 - 1).
  apply andb_true_intro; split; apply Z.leb_le; lia.
Qed.

End Operation_facts.

(** ** Infinities in the running sum *)

Section Infinity_facts.

Lemma is_infinity_of_eq (s : bool) (x : double) :
  is_infinity_of s x = true -> x = S754_infinity s.
Proof.
  destruct x as [sx|sx| |sx m e]; simpl; intros H; try discriminate H.
  apply Bool.eqb_prop in H. now subst.
Qed.

Lemma is_infinity_of_neq (s : bool) (x : double) :
  is_infinity_of s x = false -> x <> S754_infinity s.
Proof. intros H ->. simpl in H. now rewrite Bool.eqb_reflx in H. Qed.

Lemma add_infinity_cases (s : bool) (x : double) :
  add (S754_infinity s) x = S754_infinity s \/ add (S754_infinity s) x = nan.
Proof. destruct x as [sx|sx| |sx m e]; simpl; auto. destruct s, sx; auto. Qed.

Lemma add_cases_infinity_r (s : bool) (x : double) :
  add x (S754_infinity s) = S754_infinity s \/ add x (S754_infinity s) = nan.
Proof. destruct x as [sx|sx| |sx m e]; simpl; auto. destruct s, sx; auto. Qed.

Lemma add_infinity_s_l (s : bool) (y : double) :
  is_nan y = false -> y <> S754_infinity (negb s) ->
  add (S754_infinity s) y = S754_infinity s.
Proof.
  intros Hy Hn. destruct y as [sy|sy| |sy m e]; try reflexivity.
  - destruct s, sy; try reflexivity; now elim Hn.
  - discriminate Hy.
Qed.

Lemma add_infinity_s_r (s : bool) (x : double) :
  is_nan x = false -> x <> S754_infinity (negb s) ->
  add x (S754_infinity s) = S754_infinity s.
Proof.
  intros Hx Hn. destruct x as [sx|sx| |sx m e]; try reflexivity.
  - destruct s, sx; try reflexivity; now elim Hn.
  - discriminate Hx.
Qed.

Lemma accumulate_opposite_infinity (s : bool) (data : list double) :
  existsb (is_infinity_of (negb s)) data = true ->
  accumulate data (S754_infinity s) = nan.
Proof.
  induction data as [|x next IH]; intros H; [discriminate H | ].
  cbn [existsb] in H. cbn [accumulate].
  destruct (is_infinity_of (negb s) x) eqn:Hx.
  - assert (Hn : add (S754_infinity s) x = nan)
      by (destruct x as [sx|sx| |sx m e]; try discriminate Hx; now destruct s, sx).
    rewrite Hn. apply accumulate_nan.
  - cbn [orb] in H. destruct (add_infinity_cases s x) as [-> | ->].
    + now apply IH.
    + apply accumulate_nan.
Qed.

Lemma accumulate_both_infinities (data : list double) :
  forall init,
    existsb (is_infinity_of false) data = true ->
    existsb (is_infinity_of true) data = true ->
    accumulate data init = nan.
Proof.
  induction data as [|x next IH]; intros init Hp Hn; [discriminate Hp | ].
  cbn [existsb] in Hp, Hn. cbn [accumulate].
  destruct x as [sx|sx| |sx m e]; cbn [is_infinity_of orb] in Hp, Hn;
    try (now apply IH).
  destruct (add_cases_infinity_r sx init) as [-> | ->];
    [ | apply accumulate_nan].
  apply accumulate_opposite_infinity. now destruct sx.
Qed.

Lemma accumulate_infinity (s : bool) (data : list double) :
  forall init,
    is_nan init = false ->
    forallb (fun x => negb (is_nan x) && negb (is_infinity_of (negb s) x)) data
    = true ->
    forallb (fun r => negb (is_infinity_of (negb s) r)) (running_sums data init)
    = true ->
    init = S754_infinity s \/ existsb (is_infinity_of s) data = true ->
    accumulate data init = S754_infinity s.
Proof.
  induction data as [|x next IH]; intros init Hinit Hdata Hrun Hinf.
  - destruct Hinf as [H|H]; [exact H | discriminate H].
  - cbn [forallb] in Hdata. apply andb_prop in Hdata. destruct Hdata as [Hx Hnext].
    apply andb_prop in Hx. destruct Hx as [Hxnan Hxinf].
    apply negb_true_iff in Hxnan. apply negb_true_iff in Hxinf.
    change (running_sums (x :: next) init)
      with (init :: running_sums next (add init x)) in Hrun.
    cbn [forallb] in Hrun. apply andb_prop in Hrun. destruct Hrun as [Hi Hrun].
    apply negb_true_iff in Hi.
    apply is_infinity_of_neq in Hxinf. apply is_infinity_of_neq in Hi.
    cbn [accumulate]. apply IH; try assumption.
    + apply add_not_nan; try assumption.
      intros s' -> ->. destruct s, s'; try (now apply Hi); now apply Hxinf.
    + destruct Hinf as [->|H].
      * left. now apply add_infinity_s_l.
      * cbn [existsb] in H. apply orb_prop in H.
        destruct H as [H|H]; [left | now right].
        apply is_infinity_of_eq in H. rewrite H. now apply add_infinity_s_r.
Qed.

End Infinity_facts.

(** ** Arithmetic on small integers is exact *)

Section Small_integer_facts.

Lemma digits_small (p : positive) :
  Zpos p < 2 ^ 52 -> Zpos (digits2_pos p) <= 52.
Proof.
  intros Hp. pose proof (digits2_pos_lower p) as Hd.
  destruct (Z_le_gt_dec (Zpos (digits2_pos p)) 52) as [H|H]; [exact H|].
  exfalso.
  assert (2 ^ 52 <= 2 ^ (Zpos (digits2_pos p) - 1)) by (apply Z.pow_le_mono_r; lia).
  lia.
Qed.

Lemma lshift_small (p : positive) :
  Zpos p < 2 ^ 52 -> Zpos (lshift p) = 53 - Zpos (digits2_pos p).
Proof.
  intros Hp. apply digits_small in Hp.
  unfold lshift, prec. rewrite Z2Pos.id; lia.
Qed.

Lemma canon_bounded (p : positive) :
  Zpos p < 2 ^ 52 ->
  bounded prec emax (Pos.iter xO p (lshift p)) (Zneg (lshift p)) = true.
Proof.
  intros Hp. pose proof (lshift_small p Hp) as Hl.
  unfold bounded, canonical_mantissa. rewrite digits2_pos_iter_xO.
  apply andb_true_intro; split.
  - apply Z.eqb_eq. unfold fexp, SpecFloat.emin, prec, emax. lia.
  - apply Z.leb_le. unfold prec, emax. lia.
Qed.

Lemma canon_digits (p : positive) :
  Zpos p < 2 ^ 52 -> Zpos (digits2_pos (Pos.iter xO p (lshift p))) = 53.
Proof.
  intros Hp. rewrite digits2_pos_iter_xO, Pos2Z.inj_add, (lshift_small p Hp). lia.
Qed.

Lemma of_Z_canon (z : Z) :
  small z = true ->
  of_Z z = match z with
           | 0 => zero
           | Zpos p => canon false p
           | Zneg p => canon true p
           end.
Proof.
  unfold small. intros H. apply Z.ltb_lt in H.
  destruct z as [|p|p]; [reflexivity | |]; apply binary_round_small; lia.
Qed.

Lemma small_int (i : int) : small (Int.signed i) = true.
Proof. pose proof (int_bounds i). unfold small. apply Z.ltb_lt. lia. Qed.

Lemma binary_round_aux_small_shifted (sx : bool) (p k : positive) :
  Zpos p < 2 ^ 52 -> (lshift p <= k)%positive ->
  binary_round_aux prec emax sx (Zpos (Pos.iter xO p k)) (Zneg k) loc_Exact
  = canon sx p.
Proof.
  intros Hp Hk. pose proof (canon_bounded p Hp) as Hb.
  destruct (Pos.eq_dec k (lshift p)) as [->|Hne].
  - now apply binary_round_aux_canonical.
  - assert (Hj : (k = lshift p + (k - lshift p))%positive) by lia.
    rewrite Hj at 1. rewrite <- pos_iter_xO_add.
    replace (Zneg k) with (Zneg (lshift p) - Zpos (k - lshift p)) by lia.
    now apply binary_round_aux_shifted.
Qed.

Lemma binary_round_small_shifted (sx : bool) (p k : positive) :
  Zpos p < 2 ^ 52 ->
  binary_round prec emax sx (Pos.iter xO p k) (Zneg k) = canon sx p.
Proof.
  intros Hp. pose proof (lshift_small p Hp) as Hl.
  pose proof (digits_small p Hp) as Hd.
  unfold binary_round. rewrite digits2_pos_iter_xO, Pos2Z.inj_add.
  assert (Hf : fexp prec emax (Zpos (digits2_pos p) + Zpos k + Zneg k)
               = Zneg (lshift p))
    by (unfold fexp, SpecFloat.emin, prec, emax; lia).
  rewrite Hf. unfold shl_align.
  destruct (Zneg (lshift p) - Zneg k) as [|d|d] eqn:Hsub.
  - apply binary_round_aux_small_shifted; [exact Hp | lia].
  - apply binary_round_aux_small_shifted; [exact Hp | lia].
  - rewrite pos_iter_xO_add.
    replace (k + d)%positive with (lshift p) by lia.
    apply binary_round_aux_canonical. now apply canon_bounded.
Qed.

Lemma binary_normalize_shifted (z : Z) (k : positive) :
  small z = true ->
  binary_normalize prec emax (z * 2 ^ Zpos k) (Zneg k) false = of_Z z.
Proof.
  intros Hz. rewrite (of_Z_canon z Hz). unfold small in Hz. apply Z.ltb_lt in Hz.
  destruct z as [|p|p].
  - reflexivity.
  - rewrite <- iter_xO_value. cbn [binary_normalize].
    apply binary_round_small_shifted. lia.
  - replace (Zneg p * 2 ^ Zpos k) with (Zneg (Pos.iter xO p k))
      by (rewrite <- Pos2Z.opp_pos, iter_xO_value; lia).
    cbn [binary_normalize]. apply binary_round_small_shifted. lia.
Qed.

Lemma add_canon (sa sb : bool) (pa pb : positive) :
  Zpos pa < 2 ^ 52 -> Zpos pb < 2 ^ 52 ->
  small (cond_Zopp sa (Zpos pa) + cond_Zopp sb (Zpos pb)) = true ->
  add (canon sa pa) (canon sb pb)
  = of_Z (cond_Zopp sa (Zpos pa) + cond_Zopp sb (Zpos pb)).
Proof.
  intros Ha Hb Hab. unfold add, canon. cbn [SFadd].
  set (la := lshift pa). set (lb := lshift pb).
  set (K := Pos.max la lb).
  assert (Hez : Z.min (Zneg la) (Zneg lb) = Zneg K) by (unfold K; lia).
  rewrite Hez.
  rewrite !shl_align_value by lia.
  rewrite !iter_xO_value.
  rewrite <- (binary_normalize_shifted _ K Hab). f_equal.
  assert (H1 : 2 ^ Zpos la * 2 ^ (Zneg la - Zneg K) = 2 ^ Zpos K).
  { rewrite <- Z.pow_add_r by lia. f_equal. lia. }
  assert (H2 : 2 ^ Zpos lb * 2 ^ (Zneg lb - Zneg K) = 2 ^ Zpos K).
  { rewrite <- Z.pow_add_r by lia. f_equal. lia. }
  rewrite <- !Z.mul_assoc, H1, H2.
  destruct sa, sb; cbn [cond_Zopp]; lia.
Qed.

Lemma add_of_Z (a b : Z) :
  small a = true -> small b = true -> small (a + b) = true ->
  add (of_Z a) (of_Z b) = of_Z (a + b).
Proof.
  intros Ha Hb Hab.
  rewrite (of_Z_canon a Ha), (of_Z_canon b Hb).
  pose proof Ha as Ha'. pose proof Hb as Hb'. unfold small in Ha', Hb'.
  apply Z.ltb_lt in Ha'. apply Z.ltb_lt in Hb'.
  destruct a as [|pa|pa], b as [|pb|pb].
  - reflexivity.
  - now rewrite (of_Z_canon _ Hab).
  - now rewrite (of_Z_canon _ Hab).
  - now rewrite (of_Z_canon _ Hab).
  - apply (add_canon false false); try lia; exact Hab.
  - apply (add_canon false true); try lia; exact Hab.
  - now rewrite (of_Z_canon _ Hab).
  - apply (add_canon true false); try lia; exact Hab.
  - apply (add_canon true true); try lia; exact Hab.
Qed.

Lemma mul_canon (sa sb : bool) (pa pb : positive) :
  Zpos pa < 2 ^ 52 -> Zpos pb < 2 ^ 52 -> Zpos (pa * pb) < 2 ^ 52 ->
  mul (canon sa pa) (canon sb pb) = canon (xorb sa sb) (pa * pb).
Proof.
  intros Ha Hb Hab. unfold mul, canon. cbn [SFmul].
  pose proof (lshift_small pa Ha) as Hla. pose proof (lshift_small pb Hb) as Hlb.
  pose proof (lshift_small _ Hab) as Hl.
  pose proof (digits2_pos_mul pa pb) as Hd.
  set (la := lshift pa) in *. set (lb := lshift pb) in *.
  assert (Hm : (Pos.iter xO pa la * Pos.iter xO pb lb)%positive
               = Pos.iter xO (pa * pb)%positive (la + lb)%positive).
  { apply Pos2Z.inj. rewrite Pos2Z.inj_mul, !iter_xO_value, Pos2Z.inj_mul.
    rewrite Pos2Z.inj_add, Z.pow_add_r by lia. ring. }
  rewrite Hm. change (Zneg la + Zneg lb) with (Zneg (la + lb)).
  apply binary_round_aux_small_shifted; [exact Hab | lia].
Qed.

Lemma mul_of_Z (a b : Z) :
  small a = true -> small b = true -> small (a * b) = true -> a * b <> 0 ->
  mul (of_Z a) (of_Z b) = of_Z (a * b).
Proof.
  intros Ha Hb Hab Hnz.
  rewrite (of_Z_canon a Ha), (of_Z_canon b Hb), (of_Z_canon _ Hab).
  unfold small in Ha, Hb, Hab.
  apply Z.ltb_lt in Ha. apply Z.ltb_lt in Hb. apply Z.ltb_lt in Hab.
  destruct a as [|pa|pa], b as [|pb|pb]; try (elim Hnz; reflexivity);
    cbn [Z.mul]; cbn [Z.mul] in Hab.
  - apply (mul_canon false false); lia.
  - apply (mul_canon false true); lia.
  - apply (mul_canon true false); lia.
  - apply (mul_canon true true); lia.
Qed.

Lemma mul_of_Z_zero (a b : Z) :
  small a = true -> small b = true -> a * b = 0 ->
  is_zero (mul (of_Z a) (of_Z b)) = true.
Proof.
  intros Ha Hb H0.
  rewrite (of_Z_canon a Ha), (of_Z_canon b Hb).
  destruct a as [|pa|pa], b as [|pb|pb]; try discriminate H0; reflexivity.
Qed.

Lemma small_fold_left (zs : list Z) :
  forall acc, forallb small (Z_running_sums zs acc) = true ->
              small (fold_left Z.add zs acc) = true.
Proof.
  induction zs as [|z rest IH]; intros acc H.
  - simpl in H. now apply andb_prop in H.
  - change (Z_running_sums (z :: rest) acc)
      with (acc :: Z_running_sums rest (acc + z)) in H.
    cbn [forallb] in H. apply andb_prop in H. destruct H as [_ H].
    cbn [fold_left]. now apply IH.
Qed.

Lemma accumulate_of_Z (zs : list Z) :
  forall acc,
    forallb small zs = true ->
    forallb small (Z_running_sums zs acc) = true ->
    accumulate (map of_Z zs) (of_Z acc) = of_Z (fold_left Z.add zs acc).
Proof.
  induction zs as [|z rest IH]; intros acc Hzs Hrun; [reflexivity | ].
  cbn [forallb] in Hzs. apply andb_prop in Hzs. destruct Hzs as [Hz Hrest].
  change (Z_running_sums (z :: rest) acc)
    with (acc :: Z_running_sums rest (acc + z)) in Hrun.
  cbn [forallb] in Hrun. apply andb_prop in Hrun. destruct Hrun as [Hacc Hrun].
  cbn [map accumulate fold_left].
  assert (Hs : small (acc + z) = true).
  { destruct rest; cbn [Z_running_sums forallb] in Hrun;
      apply andb_prop in Hrun; now destruct Hrun. }
  rewrite add_of_Z by assumption. now apply IH.
Qed.

Lemma eqb_of_Z_refl (z : Z) : small z = true -> eqb (of_Z z) (of_Z z) = true.
Proof.
  intros Hz. rewrite (of_Z_canon z Hz).
  destruct z as [|p|p]; [reflexivity | |]; unfold eqb, SFeqb, canon;
    cbn [SFcompare]; rewrite Z.compare_refl;
    change (Pos.compare_cont Eq ?x ?x) with (Pos.compare x x);
    now rewrite Pos.compare_refl.
Qed.

(** The product of a nonzero [int] with a nonzero double does not underflow
    to zero. *)
Lemma mul_canon_not_zero (s : bool) (p : positive) (x : double) :
  Zpos p < 2 ^ 52 -> is_double x = true ->
  is_zero (mul (canon s p) x) = is_zero x.
Proof.
  intros Hp Hx. destruct x as [sy|sy| |sy my ey]; try reflexivity.
  unfold mul, canon. cbn [SFmul is_zero].
  pose proof (canon_digits p Hp) as Hd.
  pose proof (lshift_small p Hp) as Hl.
  pose proof (digits_small p Hp) as Hdp.
  pose proof (digits2_pos_mul (Pos.iter xO p (lshift p)) my) as Hm.
  pose proof (bounded_emin my ey Hx) as Hey.
  apply binary_round_aux_keeps_pos; [lia | | ]; cbn [Zdigits2].
  - unfold fexp, SpecFloat.emin, prec, emax. lia.
  - revert Hey. unfold SpecFloat.emin, prec, emax. lia.
Qed.

Lemma mul_static_cast_not_zero (i : int) (x : double) :
  Int.signed i <> 0 -> is_double x = true ->
  is_zero (mul (static_cast_double i) x) = is_zero x.
Proof.
  intros Hi Hx. unfold static_cast_double.
  rewrite (of_Z_canon _ (small_int i)).
  pose proof (int_bounds i) as Hb.
  destruct (Int.signed i) as [|p|p]; [now elim Hi | |];
    apply mul_canon_not_zero; try assumption; lia.
Qed.

End Small_integer_facts.

(** ** Padding with zeros *)

Section Padding_facts.

Lemma add_zero_r (x : double) (s : bool) :
  x <> neg_zero -> add x (S754_zero s) = x.
Proof.
  intros Hx. destruct x as [sx|sx| |sx m e]; try reflexivity.
  destruct sx, s; try reflexivity. now elim Hx.
Qed.

Lemma accumulate_zeros (pad : list double) :
  forall init, init <> neg_zero -> forallb is_zero pad = true ->
               accumulate pad init = init.
Proof.
  induction pad as [|x pad IH]; intros init Hi Hp; [reflexivity | ].
  cbn [forallb] in Hp. apply andb_prop in Hp. destruct Hp as [Hx Hp].
  destruct x as [s|s| |s m e]; try discriminate Hx.
  cbn [accumulate]. rewrite add_zero_r by exact Hi. now apply IH.
Qed.

End Padding_facts.

(** ** The properties *)

(** X1: with the multiplier 1 the function returns the left-to-right sum of
    the elements itself, bit for bit (sign of zero, infinities and NaN
    included), for every vector of well-formed doubles. *)
Theorem multiplier_one (data : list double) :
  forallb is_double data = true ->
  example_cpp_function (Int.repr 1) data = accumulate data zero.
Proof.
  intros H. unfold example_cpp_function.
  change (static_cast_double (Int.repr 1)) with d_one.
  apply mul_one_l. now apply accumulate_is_double.
Qed.

Lemma multiplier_one_witness :
  forallb is_double [d_half; max_float; SFopp d_three] = true
  /\ example_cpp_function (Int.repr 1) [d_half; max_float; SFopp d_three]
     = accumulate [d_half; max_float; SFopp d_three] zero.
Proof.
  split; [reflexivity | ].
  apply (multiplier_one [d_half; max_float; SFopp d_three]). reflexivity.
Defined.

(** X2: negating the multiplier negates the result, for every multiplier
    other than 0 and INT_MIN and every vector: the result for the negated
    multiplier is NaN exactly when the result is, and when it is not NaN it
    is the same double with the sign bit flipped. *)
Theorem negated_multiplier (i : int) (data : list double) :
  Int.signed i <> 0 -> Int.signed i <> Int.min_signed ->
  is_nan (example_cpp_function (Int.repr (- Int.signed i)) data)
  = is_nan (example_cpp_function i data)
  /\ (is_nan (example_cpp_function i data) = false ->
      example_cpp_function (Int.repr (- Int.signed i)) data
      = SFopp (example_cpp_function i data)).
Proof.
  intros H0 Hmin.
  assert (H : example_cpp_function (Int.repr (- Int.signed i)) data
              = SFopp (example_cpp_function i data)).
  { unfold example_cpp_function, static_cast_double.
    rewrite signed_repr_opp by exact Hmin.
    rewrite of_Z_opp by exact H0. apply mul_opp_l. }
  split; [ | intros _; exact H].
  rewrite H. now destruct (example_cpp_function i data).
Qed.

Lemma negated_multiplier_witness :
  Int.signed (Int.repr 3) <> 0
  /\ Int.signed (Int.repr 3) <> Int.min_signed
  /\ is_nan (example_cpp_function (Int.repr (- Int.signed (Int.repr 3)))
               [d_half; d_two])
     = is_nan (example_cpp_function (Int.repr 3) [d_half; d_two])
  /\ (is_nan (example_cpp_function (Int.repr 3) [d_half; d_two]) = false ->
      example_cpp_function (Int.repr (- Int.signed (Int.repr 3)))
        [d_half; d_two]
      = SFopp (example_cpp_function (Int.repr 3) [d_half; d_two])).
Proof.
  split; [discriminate | split; [discriminate | ]].
  apply (negated_multiplier (Int.repr 3) [d_half; d_two]); discriminate.
Defined.

(** X3: the function maps well-formed doubles to a well-formed double: if
    every element is a binary64 value (canonical mantissa and exponent in
    range), so is the result, for every multiplier. *)
Theorem result_is_double (input : int) (data : list double) :
  forallb is_double data = true ->
  is_double (example_cpp_function input data) = true.
Proof.
  intros H. unfold example_cpp_function. apply mul_is_double.
  - apply of_Z_is_double.
  - now apply accumulate_is_double.
Qed.

Lemma result_is_double_witness :
  forallb is_double [max_float; d_half; infinity; nan] = true
  /\ is_double (example_cpp_function (Int.repr (-7))
                  [max_float; d_half; infinity; nan]) = true.
Proof.
  split; [reflexivity | ].
  apply (result_is_double (Int.repr (-7)) [max_float; d_half; infinity; nan]).
  reflexivity.
Defined.

(** X4: the product never underflows: for a multiplier other than 0 and
    well-formed elements, the result is a zero exactly when the sum of the
    elements is a zero. *)
Theorem no_underflow (input : int) (data : list double) :
  forallb is_double data = true ->
  Int.signed input <> 0 ->
  is_zero (example_cpp_function input data) = is_zero (accumulate data zero).
Proof.
  intros Hd Hi. unfold example_cpp_function.
  apply mul_static_cast_not_zero; [exact Hi | ].
  now apply accumulate_is_double.
Qed.

Lemma no_underflow_witness :
  forallb is_double [S754_finite false 1 (-1074)] = true
  /\ Int.signed (Int.repr 5) <> 0
  /\ is_zero (example_cpp_function (Int.repr 5) [S754_finite false 1 (-1074)])
     = is_zero (accumulate [S754_finite false 1 (-1074)] zero).
Proof.
  split; [reflexivity | split; [discriminate | ]].
  apply (no_underflow (Int.repr 5) [S754_finite false 1 (-1074)]);
    [reflexivity | discriminate].
Defined.

(** X5: for a multiplier other than 0 and well-formed elements, a zero
    result carries the sign of the multiplier: 0.0 for a positive
    multiplier, -0.0 for a negative one, whatever the signs of the elements
    (the sum, started from 0.0, is never -0.0). *)
Theorem zero_result_sign (input : int) (data : list double) (s : bool) :
  forallb is_double data = true ->
  Int.signed input <> 0 ->
  example_cpp_function input data = S754_zero s ->
  s = (Int.signed input <? 0).
Proof.
  intros Hd Hi Hr.
  pose proof (mul_static_cast_not_zero input (accumulate data zero) Hi
                (accumulate_is_double data zero eq_refl Hd)) as Hz.
  pose proof (accumulate_not_neg_zero data zero eq_refl ltac:(discriminate) Hd)
    as Hn.
  unfold example_cpp_function in Hr. rewrite Hr in Hz. cbn [is_zero] in Hz.
  destruct (accumulate data zero) as [ss|ss| |ss ms es]; try discriminate Hz.
  assert (ss = false) as -> by (destruct ss; [now elim Hn | reflexivity]).
  destruct (static_cast_double_cases input) as [[H0 _]|(m & e & Hf)];
    [now elim Hi | ].
  rewrite Hf in Hr. cbn in Hr. injection Hr as <-.
  now destruct (Int.signed input <? 0).
Qed.

Lemma zero_result_sign_witness :
  forallb is_double [neg_zero; neg_zero] = true
  /\ Int.signed (Int.repr 4) <> 0
  /\ example_cpp_function (Int.repr 4) [neg_zero; neg_zero] = S754_zero false
  /\ false = (Int.signed (Int.repr 4) <? 0).
Proof.
  split; [reflexivity | split; [discriminate | split; [reflexivity | ]]].
  apply (zero_result_sign (Int.repr 4) [neg_zero; neg_zero] false);
    [reflexivity | discriminate | reflexivity].
Defined.

(** X6: if the vector contains both +Infinity and -Infinity, the result is
    NaN, whatever the multiplier, the other elements and the order. *)
Theorem both_infinities_nan (input : int) (data : list double) :
  existsb (is_infinity_of false) data = true ->
  existsb (is_infinity_of true) data = true ->
  example_cpp_function input data = nan.
Proof.
  intros Hp Hn. unfold example_cpp_function.
  rewrite accumulate_both_infinities by assumption. apply mul_nan_r.
Qed.

Lemma both_infinities_nan_witness :
  existsb (is_infinity_of false) [d_one; neg_infinity; d_two; infinity] = true
  /\ existsb (is_infinity_of true) [d_one; neg_infinity; d_two; infinity] = true
  /\ example_cpp_function (Int.repr 0) [d_one; neg_infinity; d_two; infinity]
     = nan.
Proof.
  split; [reflexivity | split; [reflexivity | ]].
  apply (both_infinities_nan (Int.repr 0)
           [d_one; neg_infinity; d_two; infinity]); reflexivity.
Defined.

(** X7: an infinity in the vector propagates with the sign rule of the
    product: for a multiplier other than 0, if the vector contains the
    infinity of sign [s], neither the opposite infinity nor NaN, and the
    running sum never overflows to the opposite infinity, the result is the
    infinity whose sign is the sign of the multiplier times [s]. *)
Theorem infinity_propagates_signed
        (s : bool) (input : int) (values : list double) :
  Int.signed input <> 0 ->
  existsb (is_infinity_of s) values = true ->
  existsb (is_infinity_of (negb s)) values = false ->
  existsb is_nan values = false ->
  never_reaches (negb s) values = true ->
  example_cpp_function input values
  = S754_infinity (xorb (Int.signed input <? 0) s).
Proof.
  intros Hm Hinf Hninf Hnan Hrun. unfold example_cpp_function.
  rewrite (accumulate_infinity s values zero); auto.
  - destruct (static_cast_double_cases input) as [[H0 _]|(m & e & ->)];
      [now elim Hm | reflexivity].
  - now apply existsb_false_forallb_negb.
Qed.

Lemma infinity_propagates_signed_witness :
  Int.signed (Int.repr (-2)) <> 0
  /\ existsb (is_infinity_of true) [d_one; neg_infinity; d_half] = true
  /\ existsb (is_infinity_of (negb true)) [d_one; neg_infinity; d_half] = false
  /\ existsb is_nan [d_one; neg_infinity; d_half] = false
  /\ never_reaches (negb true) [d_one; neg_infinity; d_half] = true
  /\ example_cpp_function (Int.repr (-2)) [d_one; neg_infinity; d_half]
     = S754_infinity (xorb (Int.signed (Int.repr (-2)) <? 0) true).
Proof.
  split; [discriminate | ]. repeat (split; [reflexivity | ]).
  apply (infinity_propagates_signed true (Int.repr (-2))
           [d_one; neg_infinity; d_half]);
    [discriminate | reflexivity ..].
Defined.

(** X8: the conversion of the multiplier to double is exact: the converted
    value is a well-formed double, and truncating it back to an integer
    gives the [int] it came from, for every [int]. *)
Theorem static_cast_double_exact (i : int) :
  is_double (static_cast_double i) = true
  /\ double_to_Z (static_cast_double i) = Int.signed i.
Proof.
  split; [apply of_Z_is_double | ].
  unfold static_cast_double. rewrite (of_Z_canon _ (small_int i)).
  pose proof (int_bounds i) as Hb.
  assert (Hc : forall s p, Zpos p < 2 ^ 52 ->
                           double_to_Z (canon s p) = cond_Zopp s (Zpos p)).
  { intros s p Hp. unfold double_to_Z, canon. f_equal.
    change (Zneg (lshift p)) with (- Zpos (lshift p)).
    rewrite Z.shiftl_opp_r, Z.shiftr_div_pow2, iter_xO_value by lia.
    apply Z.div_mul. apply Z.pow_nonzero; lia. }
  destruct (Int.signed i) as [|p|p]; [reflexivity | |]; apply Hc; lia.
Qed.

(** X9: on integer data the function computes the exact integer result: if
    every element is the double of an integer and the elements, every
    running sum and the final product are below 2^52 in magnitude, the
    result is the double of multiplier * (sum of the integers).  It compares
    equal to it in every case, and is identical to it unless that product is
    0 (where the result may be -0.0). *)
Theorem small_integers_exact (input : int) (zs : list Z) :
  forallb small zs = true ->
  forallb small (Z_running_sums zs 0) = true ->
  small (Int.signed input * fold_left Z.add zs 0) = true ->
  eqb (example_cpp_function input (map of_Z zs))
      (of_Z (Int.signed input * fold_left Z.add zs 0)) = true
  /\ (Int.signed input * fold_left Z.add zs 0 <> 0 ->
      example_cpp_function input (map of_Z zs)
      = of_Z (Int.signed input * fold_left Z.add zs 0)).
Proof.
  intros Hzs Hrun Hprod. unfold example_cpp_function, static_cast_double.
  change zero with (of_Z 0). rewrite accumulate_of_Z by assumption.
  pose proof (small_int input) as Hi.
  pose proof (small_fold_left zs 0 Hrun) as Hsum.
  destruct (Z.eq_dec (Int.signed input * fold_left Z.add zs 0) 0) as [H0|Hnz].
  - split; [ | intros Hnz; now elim Hnz].
    pose proof (mul_of_Z_zero _ _ Hi Hsum H0) as Hz. rewrite H0.
    destruct (mul (of_Z (Int.signed input)) (of_Z (fold_left Z.add zs 0)));
      try discriminate Hz. reflexivity.
  - rewrite mul_of_Z by assumption.
    split; [now apply eqb_of_Z_refl | reflexivity].
Qed.

Lemma small_integers_exact_witness :
  forallb small [1; -7; 2; 3] = true
  /\ forallb small (Z_running_sums [1; -7; 2; 3] 0) = true
  /\ small (Int.signed (Int.repr 3) * fold_left Z.add [1; -7; 2; 3] 0) = true
  /\ eqb (example_cpp_function (Int.repr 3) (map of_Z [1; -7; 2; 3]))
         (of_Z (Int.signed (Int.repr 3) * fold_left Z.add [1; -7; 2; 3] 0))
     = true
  /\ (Int.signed (Int.repr 3) * fold_left Z.add [1; -7; 2; 3] 0 <> 0 ->
      example_cpp_function (Int.repr 3) (map of_Z [1; -7; 2; 3])
      = of_Z (Int.signed (Int.repr 3) * fold_left Z.add [1; -7; 2; 3] 0)).
Proof.
  repeat (split; [reflexivity | ]).
  apply (small_integers_exact (Int.repr 3) [1; -7; 2; 3]); reflexivity.
Defined.

(** X10: padding with zeros changes nothing: elements equal to 0.0 or -0.0
    inserted anywhere after a prefix of well-formed doubles (also at the
    very front or the very end) leave the result as it is, bit for bit. *)
Theorem zero_padding (input : int) (l1 pad l2 : list double) :
  forallb is_double l1 = true ->
  forallb is_zero pad = true ->
  example_cpp_function input (l1 ++ pad ++ l2)
  = example_cpp_function input (l1 ++ l2).
Proof.
  intros Hl1 Hpad. unfold example_cpp_function.
  rewrite !accumulate_app. rewrite (accumulate_zeros pad); [reflexivity | | exact Hpad].
  apply accumulate_not_neg_zero; [reflexivity | discriminate | exact Hl1].
Qed.

Lemma zero_padding_witness :
  forallb is_double [d_half; SFopp d_half] = true
  /\ forallb is_zero [neg_zero; zero; neg_zero] = true
  /\ example_cpp_function (Int.repr (-3))
       ([d_half; SFopp d_half] ++ [neg_zero; zero; neg_zero] ++ [d_two])
     = example_cpp_function (Int.repr (-3)) ([d_half; SFopp d_half] ++ [d_two]).
Proof.
  split; [reflexivity | split; [reflexivity | ]].
  apply (zero_padding (Int.repr (-3)) [d_half; SFopp d_half]
           [neg_zero; zero; neg_zero] [d_two]); reflexivity.
Defined.
